(** * MediaManager: torrent import utilities

    A shallow embedding of [media_manager/torrent/utils.py]: the recursive
    file scan, the archive expander, the single-file importer and the import
    orchestrator, over an explicit model of the file system, the log and the
    calls made to the extraction collaborator. *)

From Stdlib Require Import List String Ascii Bool PeanoNat.
From Stdlib Require Import DecimalString Strings.Byte.
Import ListNotations.
Open Scope string_scope.
Open Scope nat_scope.
Open Scope list_scope.

(** String concatenation, Python's [+] and the joints of an f-string. *)
Infix "+++" := String.append (at level 60, right associativity).

(** ** Paths

    A [pathlib.Path] is the list of its components, read from the root of
    the modelled tree. *)

Definition Path := list string.

Definition path_eqb (p q : Path) : bool :=
  if list_eq_dec string_dec p q then true else false.

(** [str(path)] *)
Definition path_str (p : Path) : string := "/" +++ String.concat "/" p.

(** [path.name] *)
Definition path_name (p : Path) : string := last p "".

(** [path.parent] *)
Definition path_parent (p : Path) : Path := removelast p.

(** [str.rfind(c)]: the index of the last occurrence, [None] for Python's -1. *)
Fixpoint rfind (c : ascii) (s : string) : option nat :=
  match s with
  | EmptyString => None
  | String a r =>
      match rfind c r with
      | Some i => Some (S i)
      | None => if Ascii.eqb a c then Some 0 else None
      end
  end.

(** [path.suffix]: [name[i:]] for [i = name.rfind('.')] when
    [0 < i < len(name) - 1], the empty string otherwise. *)
Definition suffix_of_name (name : string) : string :=
  match rfind "."%char name with
  | Some i =>
      if (0 <? i) && (i <? String.length name - 1)
      then substring i (String.length name - i) name
      else ""
  | None => ""
  end.

Definition path_suffix (p : Path) : string := suffix_of_name (path_name p).

(** [str.startswith] *)
Definition startswith (s pre : string) : bool := String.prefix pre s.

(** Splitting a string at ["/"], for [Path / str]. *)
Fixpoint split_slash (s : string) (cur : string) : list string :=
  match s with
  | EmptyString => [cur]
  | String a r =>
      if Ascii.eqb a "/"%char then cur :: split_slash r ""
      else split_slash r (cur +++ String a "")
  end.

Definition components (s : string) : list string :=
  filter (fun c => negb (String.eqb c "" || String.eqb c ".")) (split_slash s "").

(** [base / s]: an absolute [s] replaces [base]. *)
Definition path_join (base : Path) (s : string) : Path :=
  if startswith s "/" then components s else base ++ components s.

(** Decimal rendering of [len(...)] and of sizes inside f-strings. *)
Definition str_nat (n : nat) : string := NilZero.string_of_uint (Nat.to_uint n).

(** [repr] of an optional string, as in the tuple [mimetypes.guess_type]
    returns. *)
Definition repr_opt (o : option string) : string :=
  match o with
  | Some s => "'" +++ s +++ "'"
  | None => "None"
  end.

Definition repr_pair (t : option string * option string) : string :=
  "(" +++ repr_opt (fst t) +++ ", " +++ repr_opt (snd t) +++ ")".

(** ** Exceptions

    An [OSError] carries its errno, and Python picks the subclass from it:
    [EEXIST] is [FileExistsError], [ENOENT] is [FileNotFoundError], and so
    on. *)

Inductive errno : Type :=
| ENOENT | ENOTDIR | ELOOP | EEXIST | EISDIR | EPERM | EACCES | EXDEV | EMLINK
| ENOSPC | EROFS | EBUSY | ENAMETOOLONG | EBADF.

Inductive exn : Type :=
| OSError (e : errno) (msg : string)
| SameFileError (msg : string)
| PatoolError (msg : string)
| OtherException (cls : string) (msg : string).

(** [str(e)] *)
Definition exn_str (e : exn) : string :=
  match e with
  | OSError _ m | SameFileError m | PatoolError m | OtherException _ m => m
  end.

(** [isinstance(e, FileExistsError)] *)
Definition is_FileExistsError (e : exn) : bool :=
  match e with
  | OSError EEXIST _ => true
  | _ => false
  end.

(** [isinstance(e, OSError)] *)
Definition is_OSError (e : exn) : bool :=
  match e with
  | OSError _ _ | SameFileError _ => true
  | _ => false
  end.

(** [isinstance(e, patoolib.util.PatoolError)] *)
Definition is_PatoolError (e : exn) : bool :=
  match e with
  | PatoolError _ => true
  | _ => false
  end.

Inductive Outcome (A : Type) : Type :=
| Ok (a : A)
| Raise (e : exn).

Arguments Ok {A} a.
Arguments Raise {A} e.

(** ** The file system

    A tree of directories; a regular file names an inode, whose bytes live in
    a table, so that two hard links share their data. A symbolic link holds
    an absolute target. Every directory of the tree can be searched for a
    name; one that is not [readable] refuses to be listed. *)

Local Unset Elimination Schemes.

Inductive node : Type :=
| File (ino : nat)
| Dir (readable : bool) (entries : list (string * node))
| Symlink (target : Path).

Local Set Elimination Schemes.

Record FS : Type := mkFS {
  tree : node;
  inodes : list (nat * list byte)
}.

Fixpoint lookup_entry (name : string) (es : list (string * node)) : option node :=
  match es with
  | [] => None
  | (k, v) :: es' => if String.eqb k name then Some v else lookup_entry name es'
  end.

Fixpoint remove_entry (name : string) (es : list (string * node)) : list (string * node) :=
  match es with
  | [] => []
  | (k, v) :: es' =>
      if String.eqb k name then remove_entry name es' else (k, v) :: remove_entry name es'
  end.

Fixpoint put_entry (name : string) (n : node) (es : list (string * node)) : list (string * node) :=
  match es with
  | [] => [(name, n)]
  | (k, v) :: es' =>
      if String.eqb k name then (k, n) :: es' else (k, v) :: put_entry name n es'
  end.

Fixpoint map_entry (name : string) (f : node -> node) (es : list (string * node)) : list (string * node) :=
  match es with
  | [] => []
  | (k, v) :: es' =>
      if String.eqb k name then (k, f v) :: es' else (k, v) :: map_entry name f es'
  end.

(** Walking down from a node without crossing a symbolic link. *)
Inductive descent : Type :=
| Reached (here : Path) (n : node)
| Link (here : Path) (name : string) (tgt rest : Path)
| Missing (here : Path) (name : string) (rest : Path)
| Blocked.

Fixpoint descend (cur : node) (here : Path) (p : Path) : descent :=
  match p with
  | [] => Reached here cur
  | name :: rest =>
      match cur with
      | Dir _ es =>
          match lookup_entry name es with
          | None => Missing here name rest
          | Some (Symlink tgt) => Link here name tgt rest
          | Some child => descend child (here ++ [name]) rest
          end
      | _ => Blocked
      end
  end.

(** Path resolution: the node a path names and where it really lives, or the
    free name in an existing directory, or the errno. [follow] says whether a
    symbolic link in the last component is followed ([stat]) or not
    ([lstat]); links in the other components always are. *)
Inductive lookup : Type :=
| Found (canon : Path) (n : node)
| Absent (parent : Path) (name : string)
| Failed (e : errno).

Definition is_nil {A} (l : list A) : bool :=
  match l with [] => true | _ => false end.

Fixpoint resolve_fuel (fuel : nat) (t : node) (follow : bool) (p : Path) : lookup :=
  match descend t [] p with
  | Reached here n => Found here n
  | Link here name tgt rest =>
      if negb follow && is_nil rest then Found (here ++ [name]) (Symlink tgt)
      else
        match fuel with
        | 0 => Failed ELOOP
        | S fuel' => resolve_fuel fuel' t follow (tgt ++ rest)
        end
  | Missing here name rest =>
      if is_nil rest then Absent here name else Failed ENOENT
  | Blocked => Failed ENOTDIR
  end.

(** Linux gives up after 40 links. *)
Definition MAXSYMLINKS : nat := 40.

Definition resolve (fs : FS) (follow : bool) (p : Path) : lookup :=
  resolve_fuel MAXSYMLINKS (tree fs) follow p.

Definition stat (fs : FS) (p : Path) : lookup := resolve fs true p.
Definition lstat (fs : FS) (p : Path) : lookup := resolve fs false p.

(** The errno of a failed lookup. *)
Definition lookup_errno (l : lookup) : errno :=
  match l with
  | Failed e => e
  | _ => ENOENT
  end.

(** [Path.exists], [Path.is_dir], [Path.is_symlink] of a path the tree
    answers for: a lookup in the tree fails with ENOENT, ENOTDIR or ELOOP,
    and to these pathlib answers [False]. *)
Definition fs_exists (fs : FS) (p : Path) : bool :=
  match stat fs p with
  | Found _ _ => true
  | _ => false
  end.

Definition fs_is_dir (fs : FS) (p : Path) : bool :=
  match stat fs p with
  | Found _ (Dir _ _) => true
  | _ => false
  end.

Definition fs_is_symlink (fs : FS) (p : Path) : bool :=
  match lstat fs p with
  | Found _ (Symlink _) => true
  | _ => false
  end.

(** Inode data. *)
Fixpoint read_inode (tbl : list (nat * list byte)) (i : nat) : list byte :=
  match tbl with
  | [] => []
  | (k, d) :: tbl' => if Nat.eqb k i then d else read_inode tbl' i
  end.

Definition fresh_inode (tbl : list (nat * list byte)) : nat :=
  S (list_max (map fst tbl)).

(** Rewriting the tree at a canonical path: [Some n] puts [n] under the last
    name, [None] removes the name. *)
Fixpoint tree_update (p : Path) (v : option node) (n : node) : node :=
  match p with
  | [] => n
  | name :: rest =>
      match n with
      | Dir r es =>
          match rest with
          | [] =>
              match v with
              | Some x => Dir r (put_entry name x es)
              | None => Dir r (remove_entry name es)
              end
          | _ => Dir r (map_entry name (tree_update rest v) es)
          end
      | _ => n
      end
  end.

(** [Path.glob("**/*")] below a root that is a directory: every entry of
    the root and of every directory below it, entering real directories only
    (a symbolic link to a directory is listed, not entered). A directory
    that cannot be listed contributes nothing: the selectors swallow the
    [PermissionError] of its [scandir]. *)
Fixpoint glob_rec (here : Path) (n : node) : list Path :=
  match n with
  | Dir true es =>
      map (fun e => here ++ [fst e]) es ++
      flat_map (fun e =>
                  match snd e with
                  | Dir _ _ => glob_rec (here ++ [fst e]) (snd e)
                  | _ => []
                  end) es
  | _ => []
  end.

(** The entries below [root]; none when [root] does not lead to a
    directory. *)
Definition fs_glob (fs : FS) (root : Path) : list Path :=
  match stat fs root with
  | Found _ n => glob_rec root n
  | _ => []
  end.

(** Storing bytes under an inode number; the newest entry is the one read. *)
Definition write_inode (i : nat) (d : list byte) (tbl : list (nat * list byte)) :
  list (nat * list byte) := (i, d) :: tbl.

Definition strerror (e : errno) : string :=
  match e with
  | ENOENT => "No such file or directory"
  | ENOTDIR => "Not a directory"
  | ELOOP => "Too many levels of symbolic links"
  | EEXIST => "File exists"
  | EISDIR => "Is a directory"
  | EPERM => "Operation not permitted"
  | EACCES => "Permission denied"
  | EXDEV => "Invalid cross-device link"
  | EMLINK => "Too many links"
  | ENOSPC => "No space left on device"
  | EROFS => "Read-only file system"
  | EBUSY => "Device or resource busy"
  | ENAMETOOLONG => "File name too long"
  | EBADF => "Bad file descriptor"
  end.

(** The numbers Linux gives them. *)
Definition errno_number (e : errno) : nat :=
  match e with
  | EPERM => 1
  | ENOENT => 2
  | EBADF => 9
  | EACCES => 13
  | EBUSY => 16
  | EEXIST => 17
  | EXDEV => 18
  | ENOTDIR => 20
  | EISDIR => 21
  | ENOSPC => 28
  | EROFS => 30
  | EMLINK => 31
  | ENAMETOOLONG => 36
  | ELOOP => 40
  end.

(** The [OSError] a system call on [p] raises, with the text [str] gives
    it. *)
Definition os_error (e : errno) (p : Path) : exn :=
  OSError e ("[Errno " +++ str_nat (errno_number e) +++ "] " +++ strerror e
             +++ ": '" +++ path_str p +++ "'").

(** *** The root of a glob

    [Path.glob] begins with [is_dir] of the path it is called on, outside any
    handler. [Path.is_dir] is an [os.stat]: it answers [False] when the call
    fails with ENOENT, ENOTDIR, EBADF or ELOOP, and when the path cannot be
    handed to the system at all (a NUL in it, a [ValueError]); any other
    [OSError] it raises again. The root comes from the caller, so a lookup
    that fails may have failed on a limit of the system rather than on the
    tree: the length of the path, or of the name the walk stops at. *)

(** Linux: the longest name of an entry, and the size of the longest path
    with its final NUL. *)
Definition NAME_MAX : nat := 255.
Definition PATH_MAX : nat := 4096.

Fixpoint has_nul (s : string) : bool :=
  match s with
  | EmptyString => false
  | String a r => Ascii.eqb a Ascii.zero || has_nul r
  end.

(** The name a walk stops at for want of an entry, through the links [stat]
    follows. *)
Fixpoint first_missing (fuel : nat) (t : node) (p : Path) : option string :=
  match descend t [] p with
  | Missing _ name _ => Some name
  | Link _ _ tgt rest =>
      match fuel with
      | 0 => None
      | S fuel' => first_missing fuel' t (tgt ++ rest)
      end
  | _ => None
  end.

Inductive stat_result : Type :=
| StatOk (n : node)
| StatErrno (e : errno)
| StatValueError.

(** [os.stat(path)] for a path handed in from outside. What the tree
    resolves, the system holds. For the rest: the string is refused before
    any call if it holds a NUL, and by the system if it is too long; then
    the walk starts, and an over-long name that is looked up and not found
    is ENAMETOOLONG, not ENOENT. *)
Definition os_stat (f : FS) (p : Path) : stat_result :=
  match stat f p with
  | Found _ n => StatOk n
  | l =>
      if existsb has_nul p then StatValueError
      else if PATH_MAX <=? String.length (path_str p) then StatErrno ENAMETOOLONG
      else
        match first_missing MAXSYMLINKS (tree f) p with
        | Some name =>
            if NAME_MAX <? String.length name then StatErrno ENAMETOOLONG
            else StatErrno (lookup_errno l)
        | None => StatErrno (lookup_errno l)
        end
  end.

(** [pathlib._ignore_error]: the errnos of [_IGNORED_ERRNOS]. *)
Definition pathlib_ignores (e : errno) : bool :=
  match e with
  | ENOENT | ENOTDIR | EBADF | ELOOP => true
  | _ => false
  end.

(** [Path.is_dir] with the exception it lets through. *)
Definition pathlib_is_dir (f : FS) (p : Path) : Outcome bool :=
  match os_stat f p with
  | StatOk (Dir _ _) => Ok true
  | StatOk _ => Ok false
  | StatValueError => Ok false
  | StatErrno e => if pathlib_ignores e then Ok false else Raise (os_error e p)
  end.

Definition DIR_SIZE : nat := 4096.

(** [path.stat().st_size] *)
Definition fs_stat_size (fs : FS) (p : Path) : Outcome nat :=
  match stat fs p with
  | Found _ (File i) => Ok (List.length (read_inode (inodes fs) i))
  | Found _ (Dir _ _) => Ok DIR_SIZE
  | Found _ (Symlink tgt) => Ok (String.length (path_str tgt))
  | l => Raise (os_error (lookup_errno l) p)
  end.

(** [path.unlink()]: removes the name itself, a symbolic link included; a
    directory is refused, and the root is no name in any directory. *)
Definition fs_unlink (fs : FS) (p : Path) : Outcome unit * FS :=
  match lstat fs p with
  | Found _ (Dir _ _) => (Raise (os_error EISDIR p), fs)
  | Found [] _ => (Raise (os_error EBUSY p), fs)
  | Found canon _ => (Ok tt, mkFS (tree_update canon None (tree fs)) (inodes fs))
  | l => (Raise (os_error (lookup_errno l) p), fs)
  end.

(** [shutil._samefile] *)
Definition same_file (fs : FS) (p q : Path) : bool :=
  match stat fs p, stat fs q with
  | Found _ (File i), Found _ (File j) => Nat.eqb i j
  | Found c (Dir _ _), Found d (Dir _ _) => path_eqb c d
  | _, _ => false
  end.

(** [shutil.copy(src, dst)]: into [dst / src.name] when [dst] is a directory;
    the source is opened for reading, then the destination for writing, which
    follows a symbolic link, truncates an existing file and creates a missing
    one. *)
Definition fs_copy (fs : FS) (src dst : Path) : Outcome Path * FS :=
  let dst' := if fs_is_dir fs dst then dst ++ [path_name src] else dst in
  if same_file fs src dst' then
    (Raise (SameFileError ("'" +++ path_str src +++ "' and '" +++ path_str dst'
                           +++ "' are the same file")), fs)
  else
    match stat fs src with
    | Found _ (File i) =>
        let data := read_inode (inodes fs) i in
        match stat fs dst' with
        | Found _ (File j) => (Ok dst', mkFS (tree fs) (write_inode j data (inodes fs)))
        | Found _ _ => (Raise (os_error EISDIR dst'), fs)
        | Absent parent name =>
            let k := fresh_inode (inodes fs) in
            (Ok dst', mkFS (tree_update (parent ++ [name]) (Some (File k)) (tree fs))
                           (write_inode k data (inodes fs)))
        | Failed e => (Raise (os_error e dst'), fs)
        end
    | Found _ _ => (Raise (os_error EISDIR src), fs)
    | l => (Raise (os_error (lookup_errno l) src), fs)
    end.

(** The bytes read through a path, when it names a regular file. *)
Definition fs_read (fs : FS) (p : Path) : option (list byte) :=
  match stat fs p with
  | Found _ (File i) => Some (read_inode (inodes fs) i)
  | _ => None
  end.

(** ** The world and its monad

    What a call can change: the file system, the records handed to the
    logger, and the calls made to [patoolib.extract_archive]. *)

Inductive level : Type := DEBUG | INFO | ERROR.

Record World : Type := mkWorld {
  fs : FS;
  log : list (level * string);
  calls : list (string * string)
}.

Definition M (A : Type) : Type := World -> Outcome A * World.

Definition ret {A} (a : A) : M A := fun w => (Ok a, w).

Definition bind {A B} (m : M A) (k : A -> M B) : M B :=
  fun w =>
    match m w with
    | (Ok a, w') => k a w'
    | (Raise e, w') => (Raise e, w')
    end.

Notation "x <- m ;; k" := (bind m (fun x => k))
  (at level 100, m at next level, right associativity).
Notation "m ;;; k" := (bind m (fun _ => k))
  (at level 100, right associativity).

(** [try: body except ...]: the first clause that matches handles the
    exception; with none it goes on up. *)
Definition try_except {A} (body : M A) (handler : exn -> option (M A)) : M A :=
  fun w =>
    match body w with
    | (Ok a, w') => (Ok a, w')
    | (Raise e, w') =>
        match handler e with
        | Some h => h w'
        | None => (Raise e, w')
        end
    end.

(** [for x in xs: body], the loop's local lists threaded as [s]. *)
Fixpoint for_fold {A S} (xs : list A) (s : S) (body : A -> S -> M S) : M S :=
  match xs with
  | [] => ret s
  | x :: xs' => s' <- body x s ;; for_fold xs' s' body
  end.

Definition for_each {A} (xs : list A) (body : A -> M unit) : M unit :=
  for_fold xs tt (fun x _ => body x).

Definition emit (l : level) (msg : string) : M unit :=
  fun w => (Ok tt, mkWorld (fs w) (log w ++ [(l, msg)]) (calls w)).

Definition log_debug : string -> M unit := emit DEBUG.
Definition log_info : string -> M unit := emit INFO.
Definition log_error : string -> M unit := emit ERROR.

Definition with_fs (w : World) (f : FS) : World := mkWorld f (log w) (calls w).

(** [list(path.glob("**/*"))]: [is_dir] of the root first, which may raise;
    nothing for a root that is no directory; otherwise the entries. *)
Definition glob (p : Path) : M (list Path) :=
  fun w =>
    match pathlib_is_dir (fs w) p with
    | Ok true => (Ok (fs_glob (fs w) p), w)
    | Ok false => (Ok [], w)
    | Raise e => (Raise e, w)
    end.

(** [x.is_dir()], [x.is_symlink()] and [x.exists()] on a path of the tree. *)
Definition is_dir (p : Path) : M bool := fun w => (Ok (fs_is_dir (fs w) p), w).
Definition is_symlink (p : Path) : M bool := fun w => (Ok (fs_is_symlink (fs w) p), w).
Definition path_exists (p : Path) : M bool := fun w => (Ok (fs_exists (fs w) p), w).
Definition stat_size (p : Path) : M nat := fun w => (fs_stat_size (fs w) p, w).

Definition unlink (p : Path) : M unit :=
  fun w => let (r, f) := fs_unlink (fs w) p in (r, with_fs w f).

Definition shutil_copy (src dst : Path) : M Path :=
  fun w => let (r, f) := fs_copy (fs w) src dst in (r, with_fs w f).

(** [media_manager.torrent.schemas.Torrent]: the fields this module reads,
    the title and the text an f-string shows for the object. *)
Record Torrent : Type := mkTorrent {
  title : string;
  torrent_str : string
}.

(** ** The module *)

Section Utils.

(** [mimetypes.guess_type]: from a file name to (type, encoding); the table
    behind it belongs to the host. *)
Variable guess_type : string -> option string * option string.

(** [patoolib.extract_archive(archive, outdir=...)]: whatever it does to
    the file system, and the exception it may raise. *)
Variable extract_archive : string -> string -> FS -> Outcome unit * FS.

(** What the host holds against a hard link from [source] to [target]
    that the tree does not show: a mount boundary, permissions, a link
    count limit. *)
Variable link_refused : Path -> Path -> option errno.

(** [AllEncompassingConfig().misc.torrent_directory] *)
Variable torrent_directory : Path.

Definition patool_extract (archive outdir : string) : M unit :=
  fun w =>
    let (r, f) := extract_archive archive outdir (fs w) in
    (r, mkWorld f (log w) (calls w ++ [(archive, outdir)])).

(** [os.link(source, target)]: the source is looked up first, then the
    target name, which must be free in an existing directory; a symbolic
    link at either end is not followed. *)
Definition fs_link (f : FS) (source target : Path) : Outcome unit * FS :=
  match lstat f source with
  | Found _ n =>
      match lstat f target with
      | Found _ _ => (Raise (os_error EEXIST target), f)
      | Failed e => (Raise (os_error e target), f)
      | Absent parent name =>
          match link_refused source target with
          | Some e => (Raise (os_error e target), f)
          | None =>
              match n with
              | Dir _ _ => (Raise (os_error EPERM source), f)
              | _ => (Ok tt, mkFS (tree_update (parent ++ [name]) (Some n) (tree f))
                                  (inodes f))
              end
          end
      end
  | l => (Raise (os_error (lookup_errno l) source), f)
  end.

(** [target.hardlink_to(source)] *)
Definition hardlink_to (target source : Path) : M unit :=
  fun w => let (r, f) := fs_link (fs w) source target in (r, with_fs w f).

(** The body of the scan loop. *)
Definition keep_file (x : Path) (valid_files : list Path) : M (list Path) :=
  d <- is_dir x ;;
  if d then
    log_debug ("'" +++ path_str x +++ "' is a directory") ;;;
    ret valid_files
  else
    l <- is_symlink x ;;
    if l then
      log_debug ("'" +++ path_str x +++ "' is a symlink") ;;;
      ret valid_files
    else
      ret (valid_files ++ [x]).

(** The default argument, the current directory, is left to the caller:
    [import_torrent] always passes the path. *)
Definition list_files_recursively (path : Path) : M (list Path) :=
  files <- glob path ;;
  log_debug ("Found " +++ str_nat (List.length files) +++ " entries via glob") ;;;
  valid_files <- for_fold files [] keep_file ;;
  log_debug ("Returning " +++ str_nat (List.length valid_files)
             +++ " files after filtering") ;;;
  ret valid_files.

(** The set literal of [extract_archives]; its second element is two
    adjacent string literals, which Python joins into one string. *)
Definition archive_types : list string :=
  [ "application/zip";
    "application/x-zip-compressed" +++ "application/x-compressed";
    "application/vnd.rar";
    "application/x-7z-compressed";
    "application/x-freearc";
    "application/x-bzip";
    "application/x-bzip2";
    "application/gzip";
    "application/x-gzip";
    "application/x-tar" ].

(** [x in s] for [x] a string or [None]. *)
Definition member (x : option string) (s : list string) : bool :=
  match x with
  | Some t => existsb (String.eqb t) s
  | None => false
  end.

Definition is_archive (file : Path) : bool :=
  member (fst (guess_type (path_str file))) archive_types.

Definition extract_failed (file : Path) (e : exn) : level * string :=
  (ERROR, "Failed to extract archive " +++ path_str file +++ ". Error: " +++ exn_str e).

(** The body of the loop of [extract_archives]. *)
Definition extract_one (file : Path) : M unit :=
  let file_type := guess_type (path_str file) in
  size <- stat_size file ;;
  log_debug ("File: " +++ path_str file +++ ", Size: " +++ str_nat size
             +++ " bytes, Type: " +++ repr_pair file_type) ;;;
  if member (fst file_type) archive_types then
    log_info ("File " +++ path_str file
              +++ " is a compressed file, extracting it into directory "
              +++ path_str (path_parent file)) ;;;
    try_except
      (patool_extract (path_str file) (path_str (path_parent file)))
      (fun e =>
         if is_PatoolError e
         then Some (log_error (snd (extract_failed file e)))
         else None)
  else ret tt.

Definition extract_archives (files : list Path) : M unit :=
  for_each files extract_one.

Definition get_torrent_filepath (torrent : Torrent) : Path :=
  path_join torrent_directory (title torrent).

Definition link_failed (target_file source_file : Path) (e : exn) : level * string :=
  (ERROR, "Failed to create hardlink from " +++ path_str source_file +++ " to "
          +++ path_str target_file +++ ": " +++ exn_str e +++ ". "
          +++ "Falling back to copying the file.").

Definition already_exists (target_file : Path) : level * string :=
  (ERROR, "File already exists at " +++ path_str target_file +++ ". ").

Definition import_file (target_file source_file : Path) : M unit :=
  e <- path_exists target_file ;;
  (if e then unlink target_file else ret tt) ;;;
  try_except
    (hardlink_to target_file source_file)
    (fun e =>
       if is_FileExistsError e then
         Some (log_error (snd (already_exists target_file)))
       else if is_OSError e then
         Some (log_error (snd (link_failed target_file source_file e)) ;;;
               _ <- shutil_copy source_file target_file ;;
               ret tt)
       else None).

(** The body of the classification loop of [import_torrent]; the state is
    the pair ([video_files], [subtitle_files]). *)
Definition classify_one (file : Path) (acc : list Path * list Path) :
  M (list Path * list Path) :=
  let (video_files, subtitle_files) := acc in
  match fst (guess_type (path_str file)) with
  | Some file_type =>
      if startswith file_type "video" then
        log_debug ("File is a video, it will be imported: " +++ path_str file) ;;;
        ret (video_files ++ [file], subtitle_files)
      else if startswith file_type "text" && String.eqb (path_suffix file) ".srt" then
        log_debug ("File is a subtitle, it will be imported: " +++ path_str file) ;;;
        ret (video_files, subtitle_files ++ [file])
      else
        log_debug ("File is neither a video nor a subtitle, will not be imported: "
                   +++ path_str file) ;;;
        ret (video_files, subtitle_files)
  | None => ret (video_files, subtitle_files)
  end.

Definition classify (all_files : list Path) : M (list Path * list Path) :=
  for_fold all_files ([], []) classify_one.

Definition import_torrent (torrent : Torrent) :
  M (list Path * list Path * list Path) :=
  log_info ("Importing torrent " +++ torrent_str torrent) ;;;
  all_files <- list_files_recursively (get_torrent_filepath torrent) ;;
  log_debug ("Found " +++ str_nat (List.length all_files)
             +++ " files downloaded by the torrent") ;;;
  extract_archives all_files ;;;
  all_files <- list_files_recursively (get_torrent_filepath torrent) ;;
  sets <- classify all_files ;;
  let (video_files, subtitle_files) := sets in
  log_info ("Found " +++ str_nat (List.length all_files) +++ " files ("
            +++ str_nat (List.length video_files) +++ " video files, "
            +++ str_nat (List.length subtitle_files)
            +++ " subtitle files) for further processing.") ;;;
  ret (video_files, subtitle_files, all_files).

End Utils.


(** ** What the functions are compared with *)

(** The entries under a directory node, each with the path that leads to it
    from that node: found by listing directories, so through directories
    that can be listed, and never through a symbolic link. *)
Inductive reachable : node -> Path -> node -> Prop :=
| reach_here es name child :
    In (name, child) es -> reachable (Dir true es) [name] child
| reach_below es name r es' rel x :
    In (name, Dir r es') es ->
    reachable (Dir r es') rel x ->
    reachable (Dir true es) (name :: rel) x.

Definition is_dir_node (n : node) : bool :=
  match n with Dir _ _ => true | _ => false end.

Definition is_symlink_node (n : node) : bool :=
  match n with Symlink _ => true | _ => false end.

(** No directory holds a name twice. *)
Fixpoint distinct (l : list string) : bool :=
  match l with
  | [] => true
  | x :: r => negb (existsb (String.eqb x) r) && distinct r
  end.

Fixpoint names_unique (n : node) : bool :=
  match n with
  | Dir _ es =>
      distinct (map fst es) && forallb (fun e => names_unique (snd e)) es
  | _ => true
  end.

(** The scan as a function of the file system alone. *)
Definition kept (f : FS) (x : Path) : bool :=
  negb (fs_is_dir f x) && negb (fs_is_symlink f x).

Definition scan_files (f : FS) (root : Path) : list Path :=
  filter (kept f) (fs_glob f root).

Definition scan_note (f : FS) (x : Path) : list (level * string) :=
  if fs_is_dir f x then [(DEBUG, "'" +++ path_str x +++ "' is a directory")]
  else if fs_is_symlink f x then [(DEBUG, "'" +++ path_str x +++ "' is a symlink")]
  else [].

Definition scan_log (f : FS) (root : Path) : list (level * string) :=
  [(DEBUG, "Found " +++ str_nat (List.length (fs_glob f root)) +++ " entries via glob")]
  ++ flat_map (scan_note f) (fs_glob f root)
  ++ [(DEBUG, "Returning " +++ str_nat (List.length (scan_files f root))
              +++ " files after filtering")].

(** The exception a scan of [root] ends with, when it ends with one: the
    one [is_dir] of the root lets through. *)
Definition scan_raises (f : FS) (root : Path) : option exn :=
  match pathlib_is_dir f root with
  | Raise e => Some e
  | Ok _ => None
  end.

(** What a scan that finds nothing adds to the log. *)
Definition empty_scan_log : list (level * string) :=
  [(DEBUG, "Found 0 entries via glob");
   (DEBUG, "Returning 0 files after filtering")].

(** After a removal a walk either misses a name or ends as it did before,
    on a node that may have lost the name further down. *)
Definition survives (before after : descent) : Prop :=
  match after with
  | Reached h _ => exists n, before = Reached h n
  | Link h nm tgt rest => before = Link h nm tgt rest
  | Missing _ _ _ => True
  | Blocked => before = Blocked
  end.

(** The first step of [import_file]:
    [if target_file.exists(): target_file.unlink()]. *)
Definition delete_step (f : FS) (target_file : Path) : Outcome unit * FS :=
  if fs_exists f target_file then fs_unlink f target_file else (Ok tt, f).

(** A root the scan can list. *)
Definition listable (f : FS) (root : Path) : bool :=
  match stat f root with
  | Found _ (Dir true _) => true
  | _ => false
  end.

Section Rules.

Variable guess_type : string -> option string * option string.

(** The classifier's rule for one file, as the specification words it. *)
Inductive verdict : Type := Video | Subtitle | Neither.

Definition rule (file : Path) : verdict :=
  match fst (guess_type (path_str file)) with
  | None => Neither
  | Some t =>
      if startswith t "video" then Video
      else if startswith t "text" && String.eqb (path_suffix file) ".srt" then Subtitle
      else Neither
  end.

Definition is_video (file : Path) : bool :=
  match rule file with Video => true | _ => false end.

Definition is_subtitle (file : Path) : bool :=
  match rule file with Subtitle => true | _ => false end.

Definition classify_note (file : Path) : list (level * string) :=
  match fst (guess_type (path_str file)) with
  | None => []
  | Some _ =>
      match rule file with
      | Video => [(DEBUG, "File is a video, it will be imported: " +++ path_str file)]
      | Subtitle => [(DEBUG, "File is a subtitle, it will be imported: " +++ path_str file)]
      | Neither =>
          [(DEBUG, "File is neither a video nor a subtitle, will not be imported: "
                   +++ path_str file)]
      end
  end.

(** The call [extract_archives] makes for an archive. *)
Definition call_of (file : Path) : string * string :=
  (path_str file, path_str (path_parent file)).

(** What [extract_archives] logs before it calls the extractor. *)
Definition extract_notes (file : Path) (size : nat) : list (level * string) :=
  [(DEBUG, "File: " +++ path_str file +++ ", Size: " +++ str_nat size
           +++ " bytes, Type: " +++ repr_pair (guess_type (path_str file)));
   (INFO, "File " +++ path_str file
          +++ " is a compressed file, extracting it into directory "
          +++ path_str (path_parent file))].

End Rules.

(** The file system one call of the extractor leaves, whether the call
    returns or raises. *)
Definition extractor_fs (extract_archive : string -> string -> FS -> Outcome unit * FS)
           (f : FS) (file : Path) : FS :=
  snd (extract_archive (path_str file) (path_str (path_parent file)) f).

(** A string without ["/"]. *)
Fixpoint no_slash (s : string) : bool :=
  match s with
  | EmptyString => true
  | String a r => negb (Ascii.eqb a "/"%char) && no_slash r
  end.

(** The parts of a path as pathlib holds them are names: no slash in them,
    none empty, none a single dot. A path is plain when, besides, none of
    its parts is [..], which the tree does not resolve. *)
Definition plain_name (s : string) : bool :=
  no_slash s && negb (String.eqb s "") && negb (String.eqb s ".")
  && negb (String.eqb s "..").

Definition plain_path (p : Path) : bool := forallb plain_name p.

(** ** Hosts and worlds to run the module on *)

Fixpoint assoc (k : string) (tbl : list (string * string)) : option string :=
  match tbl with
  | [] => None
  | (a, b) :: t => if String.eqb a k then Some b else assoc k t
  end.

(** A [mimetypes] that knows the extensions of [tbl] and no encodings. *)
Definition table_guess_type (tbl : list (string * string)) (s : string) :
  option string * option string :=
  (assoc (suffix_of_name (last (components s) "")) tbl, None).

Definition posix_types : list (string * string) :=
  [ (".mkv", "video/x-matroska"); (".mp4", "video/mp4"); (".srt", "text/plain");
    (".SRT", "text/plain"); (".txt", "text/plain"); (".zip", "application/zip");
    (".rar", "application/vnd.rar") ].

(** The Windows registry gives [.zip] the compressed-zip type. *)
Definition windows_types : list (string * string) :=
  [ (".mkv", "video/x-matroska"); (".mp4", "video/mp4"); (".srt", "text/plain");
    (".txt", "text/plain"); (".zip", "application/x-zip-compressed") ].

Definition show_dir : node :=
  Dir true
    [ ("ep1.mkv", File 1); ("pack.zip", File 2);
      ("subs", Dir true [ ("ep1.srt", File 3); ("notes.txt", File 4) ]);
      ("link", Symlink ["downloads"; "Show"; "subs"]);
      ("dangling", Symlink ["nowhere"]);
      ("secret", Dir false [ ("x.mp4", File 5) ]) ].

Definition disk : FS :=
  mkFS (Dir true [ ("downloads", Dir true [ ("Show", show_dir) ]);
                   ("library", Dir true []) ])
       [ (1, [x00; x01]); (2, [x02]); (3, [x03]); (4, []); (5, []) ].

Definition world0 : World := mkWorld disk [] [].

Definition show : Path := ["downloads"; "Show"].

(** A name of 256 characters, one more than an entry may have. *)
Definition long_name : string := string_of_list_ascii (repeat "a"%char 256).

(** Extractors: one that rejects every archive, one that crashes with
    something else, one that does nothing. *)
Definition patool_rejects (a o : string) (f : FS) : Outcome unit * FS :=
  (Raise (PatoolError "bad archive"), f).

Definition patool_crashes (a o : string) (f : FS) : Outcome unit * FS :=
  (Raise (OtherException "KeyError" "format"), f).

Definition patool_noop (a o : string) (f : FS) : Outcome unit * FS := (Ok tt, f).

Definition no_refusal (s t : Path) : option errno := None.
Definition cross_device (s t : Path) : option errno := Some EXDEV.

(** An extractor that unpacks a video and one more archive into the output
    directory. *)
Definition patool_unpacks (a o : string) (f : FS) : Outcome unit * FS :=
  (Ok tt,
   mkFS (tree_update (components o ++ ["inner.zip"]) (Some (File 8))
           (tree_update (components o ++ ["movie.mp4"]) (Some (File 7)) (tree f)))
        ((8, [x08]) :: (7, [x07]) :: inodes f)).

Definition show_torrent : Torrent := mkTorrent "Show" "Torrent(title='Show')".

(** A torrent whose directory is not there, and one whose directory holds
    no archive. *)
Definition gone_torrent : Torrent := mkTorrent "Gone" "Torrent(title='Gone')".

(** The disk once [pack.zip] has been unlinked. *)
Definition disk_without_pack : FS :=
  mkFS (tree_update (show ++ ["pack.zip"]) None (tree disk)) (inodes disk).

(** The world once a batch has passed the video file, which is no archive. *)
Definition after_video : World :=
  mkWorld disk
          [(DEBUG, "File: /downloads/Show/ep1.mkv, Size: 2 bytes, "
                   +++ "Type: ('video/x-matroska', None)")]
          [].


(** * Properties *)

(** ** The monad and its loops *)

Lemma world_eta (w : World) : mkWorld (fs w) (log w) (calls w) = w.
Proof. destruct w; reflexivity. Qed.

Lemma world_log_nil (w : World) : mkWorld (fs w) (log w ++ []) (calls w) = w.
Proof. rewrite app_nil_r. apply world_eta. Qed.

Lemma bind_ok {A B} (m : M A) (k : A -> M B) (w w' : World) (a : A) :
  m w = (Ok a, w') -> bind m k w = k a w'.
Proof. intros H. unfold bind. rewrite H. reflexivity. Qed.

Lemma bind_raise {A B} (m : M A) (k : A -> M B) (w w' : World) (e : exn) :
  m w = (Raise e, w') -> bind m k w = (Raise e, w').
Proof. intros H. unfold bind. rewrite H. reflexivity. Qed.

Lemma for_fold_app {A S} (body : A -> S -> M S) (xs ys : list A) (s : S) (w : World) :
  for_fold (xs ++ ys) s body w =
  match for_fold xs s body w with
  | (Ok s', w') => for_fold ys s' body w'
  | (Raise e, w') => (Raise e, w')
  end.
Proof.
  revert s w. induction xs as [|x xs IH]; intros s w.
  - reflexivity.
  - rewrite <- app_comm_cons. simpl for_fold. unfold bind.
    destruct (body x s w) as [[s'|e] w']; [apply IH | reflexivity].
Qed.

Lemma for_each_app {A} (body : A -> M unit) (xs ys : list A) (w : World) :
  for_each (xs ++ ys) body w =
  match for_each xs body w with
  | (Ok _, w') => for_each ys body w'
  | (Raise e, w') => (Raise e, w')
  end.
Proof.
  unfold for_each. rewrite for_fold_app.
  destruct (for_fold xs tt _ w) as [[[]|e] w']; reflexivity.
Qed.

Lemma for_each_cons {A} (body : A -> M unit) (x : A) (xs : list A) (w : World) :
  for_each (x :: xs) body w =
  match body x w with
  | (Ok _, w') => for_each xs body w'
  | (Raise e, w') => (Raise e, w')
  end.
Proof.
  unfold for_each. cbn [for_fold]. unfold bind.
  destruct (body x w) as [[[]|e] w']; reflexivity.
Qed.

(** ** The scan *)

Lemma keep_file_eq (x : Path) (acc : list Path) (w : World) :
  keep_file x acc w =
  (Ok (acc ++ filter (kept (fs w)) [x]),
   mkWorld (fs w) (log w ++ scan_note (fs w) x) (calls w)).
Proof.
  unfold keep_file, bind, is_dir, is_symlink, kept, scan_note, log_debug, emit, ret.
  cbn [filter].
  destruct (fs_is_dir (fs w) x); cbn.
  - rewrite app_nil_r. reflexivity.
  - destruct (fs_is_symlink (fs w) x); cbn.
    + rewrite app_nil_r. reflexivity.
    + rewrite world_log_nil. reflexivity.
Qed.

Lemma scan_loop (files acc : list Path) (w : World) :
  for_fold files acc keep_file w =
  (Ok (acc ++ filter (kept (fs w)) files),
   mkWorld (fs w) (log w ++ flat_map (scan_note (fs w)) files) (calls w)).
Proof.
  revert acc w. induction files as [|x files IH]; intros acc w.
  - cbn. rewrite app_nil_r, world_log_nil. reflexivity.
  - cbn [for_fold]. erewrite bind_ok by apply keep_file_eq.
    rewrite IH. cbn [fs log calls flat_map].
    rewrite <- !app_assoc. f_equal. f_equal.
    cbn [filter]. destruct (kept (fs w) x); reflexivity.
Qed.

Lemma pathlib_is_dir_found (f : FS) (root c : Path) (T : node) :
  stat f root = Found c T -> pathlib_is_dir f root = Ok (fs_is_dir f root).
Proof.
  intros H. unfold pathlib_is_dir, os_stat, fs_is_dir. rewrite H.
  destruct T; reflexivity.
Qed.

Lemma scan_raises_found (f : FS) (root c : Path) (T : node) :
  stat f root = Found c T -> scan_raises f root = None.
Proof.
  intros H. unfold scan_raises. rewrite (pathlib_is_dir_found _ _ _ _ H). reflexivity.
Qed.

(** A root that [is_dir] denies has no entries to list. *)
Lemma not_a_directory_glob (f : FS) (root : Path) :
  pathlib_is_dir f root = Ok false -> fs_glob f root = [].
Proof.
  unfold pathlib_is_dir, os_stat, fs_glob.
  destruct (stat f root) as [c [i|r es|t]| |]; try reflexivity. discriminate.
Qed.

Lemma glob_eq (root : Path) (w : World) :
  glob root w =
  match scan_raises (fs w) root with
  | Some e => (Raise e, w)
  | None => (Ok (fs_glob (fs w) root), w)
  end.
Proof.
  unfold glob, scan_raises.
  destruct (pathlib_is_dir (fs w) root) as [[]|e] eqn:H; try reflexivity.
  rewrite (not_a_directory_glob _ _ H). reflexivity.
Qed.

(** The scan raises what [is_dir] of its root raises, before it has logged
    anything; otherwise it returns [scan_files] of the file system it finds
    and leaves that file system alone. *)
Lemma list_files_recursively_eq (root : Path) (w : World) :
  list_files_recursively root w =
  match scan_raises (fs w) root with
  | Some e => (Raise e, w)
  | None =>
      (Ok (scan_files (fs w) root),
       mkWorld (fs w) (log w ++ scan_log (fs w) root) (calls w))
  end.
Proof.
  unfold list_files_recursively.
  unfold bind at 1. rewrite glob_eq.
  destruct (scan_raises (fs w) root) as [e|]; [reflexivity|].
  unfold bind at 1. unfold log_debug at 1, emit.
  erewrite bind_ok by apply scan_loop.
  unfold bind, log_debug, emit, ret. cbn [fs log calls app].
  unfold scan_log, scan_files. rewrite <- !app_assoc. reflexivity.
Qed.

Lemma list_files_recursively_found (root c : Path) (T : node) (w : World) :
  stat (fs w) root = Found c T ->
  list_files_recursively root w =
  (Ok (scan_files (fs w) root),
   mkWorld (fs w) (log w ++ scan_log (fs w) root) (calls w)).
Proof.
  intros H. rewrite list_files_recursively_eq, (scan_raises_found _ _ _ _ H).
  reflexivity.
Qed.

(** ** Trees *)

Lemma node_induction (P : node -> Prop) :
  (forall i, P (File i)) ->
  (forall t, P (Symlink t)) ->
  (forall r es, Forall (fun e => P (snd e)) es -> P (Dir r es)) ->
  forall n, P n.
Proof.
  intros HF HS HD. fix IH 1. intros [i|r es|t].
  - apply HF.
  - apply HD. induction es as [|e es IHes]; constructor.
    + apply IH.
    + exact IHes.
  - apply HS.
Qed.

Lemma lookup_entry_In (name : string) (child : node) (es : list (string * node)) :
  distinct (map fst es) = true -> In (name, child) es ->
  lookup_entry name es = Some child.
Proof.
  induction es as [|[k v] es IH]; cbn; intros Hd Hin; [contradiction|].
  apply andb_true_iff in Hd as [Hk Hd].
  destruct Hin as [Heq|Hin].
  - inversion Heq; subst. rewrite String.eqb_refl. reflexivity.
  - destruct (String.eqb_spec k name) as [->|Hne]; [|auto].
    exfalso. apply negb_true_iff in Hk.
    assert (existsb (String.eqb name) (map fst es) = true) as Hex.
    { apply existsb_exists. exists name. split.
      - apply (in_map fst) in Hin. exact Hin.
      - apply String.eqb_refl. }
    congruence.
Qed.

Lemma names_unique_child (r : bool) (es : list (string * node)) (name : string) (child : node) :
  names_unique (Dir r es) = true -> In (name, child) es ->
  names_unique child = true.
Proof.
  cbn. intros H Hin. apply andb_true_iff in H as [_ H].
  rewrite forallb_forall in H. apply (H (name, child) Hin).
Qed.

(** [glob_rec] lists the reachable entries and nothing else. *)
Lemma glob_rec_reachable (n : node) :
  forall here p,
    In p (glob_rec here n) <->
    exists rel x, reachable n rel x /\ p = here ++ rel.
Proof.
  induction n as [i|t|r es IH] using node_induction; intros here p.
  - cbn. split; [contradiction|]. intros (rel & x & H & _). inversion H.
  - cbn. split; [contradiction|]. intros (rel & x & H & _). inversion H.
  - destruct r.
    2:{ cbn. split; [contradiction|]. intros (rel & x & H & _). inversion H. }
    cbn [glob_rec]. rewrite in_app_iff, in_map_iff, in_flat_map. split.
    + intros [([name child] & Hp & Hin)|([name child] & Hin & Hp)]; cbn [fst snd] in *.
      * exists [name], child. split; [constructor; exact Hin | symmetry; exact Hp].
      * destruct child as [i|r' es'|t]; try contradiction.
        rewrite Forall_forall in IH. specialize (IH _ Hin). cbn [snd] in IH.
        apply IH in Hp as (rel & x & Hr & ->).
        exists (name :: rel), x. split.
        -- eapply reach_below; eassumption.
        -- rewrite <- app_assoc. reflexivity.
    + intros (rel & x & Hr & ->). inversion Hr; subst.
      * left. exists (name, x). split; [reflexivity | assumption].
      * right. exists (name, Dir r es'). split; [assumption|]. cbn [fst snd].
        rewrite Forall_forall in IH.
        match goal with Hin : In (name, Dir r es') es |- _ => specialize (IH _ Hin) end.
        cbn [snd] in IH. apply IH. exists rel0, x. split; [assumption|].
        rewrite <- app_assoc. reflexivity.
Qed.

Lemma reachable_nonempty (n : node) (rel : Path) (x : node) :
  reachable n rel x -> rel <> [].
Proof. intros H; inversion H; discriminate. Qed.

(** Where names are unique, walking down a reachable path finds the entry. *)
Lemma reachable_descend (n : node) (rel : Path) (x : node) :
  reachable n rel x -> names_unique n = true ->
  forall here,
    match x with
    | Symlink tgt => exists h nm, descend n here rel = Link h nm tgt []
    | _ => descend n here rel = Reached (here ++ rel) x
    end.
Proof.
  induction 1 as [es name child Hin | es name r es' rel x Hin Hr IH]; intros Hu here.
  - cbn [descend].
    rewrite (lookup_entry_In name child es); [| |exact Hin].
    2:{ cbn in Hu. apply andb_true_iff in Hu. tauto. }
    destruct child; cbn; eauto.
  - cbn [descend].
    rewrite (lookup_entry_In name (Dir r es') es); [| |exact Hin].
    2:{ cbn in Hu. apply andb_true_iff in Hu. tauto. }
    specialize (IH (names_unique_child _ _ _ _ Hu Hin) (here ++ [name])).
    rewrite <- app_assoc in IH. exact IH.
Qed.

Lemma descend_app (p q : Path) :
  forall t here,
    descend t here (p ++ q) =
    match descend t here p with
    | Reached h n => descend n h q
    | Link h nm tgt rest => Link h nm tgt (rest ++ q)
    | Missing h nm rest => Missing h nm (rest ++ q)
    | Blocked => Blocked
    end.
Proof.
  induction p as [|name p IH]; intros t here.
  - reflexivity.
  - rewrite <- app_comm_cons. cbn [descend]. destruct t as [i|r es|tg]; try reflexivity.
    destruct (lookup_entry name es) as [[i|r' es'|tg]|]; try reflexivity; apply IH.
Qed.

Lemma is_nil_app {A} (l r : list A) : r <> [] -> is_nil (l ++ r) = false.
Proof. intros H. destruct l; [destruct r; [congruence|reflexivity] | reflexivity]. Qed.

(** Resolving a path below a resolved root. *)
Lemma resolve_below (fuel : nat) (t : node) :
  forall root c T,
    resolve_fuel fuel t true root = Found c T ->
    forall rel, rel <> [] ->
      (forall h n follow,
          descend T c rel = Reached h n ->
          resolve_fuel fuel t follow (root ++ rel) = Found h n) /\
      (forall h nm tgt,
          descend T c rel = Link h nm tgt [] ->
          resolve_fuel fuel t false (root ++ rel) = Found (h ++ [nm]) (Symlink tgt)).
Proof.
  induction fuel as [|fuel IH]; intros root c T Hroot rel Hrel.
  - cbn [resolve_fuel] in *. rewrite descend_app.
    destruct (descend t [] root) as [h0 n0|h0 nm0 tg0 rest0|h0 nm0 rest0|];
      cbn in Hroot; try discriminate.
    + inversion Hroot; subst. split; intros; rewrite H; reflexivity.
    + destruct (is_nil rest0); discriminate.
  - cbn [resolve_fuel] in *. rewrite descend_app.
    destruct (descend t [] root) as [h0 n0|h0 nm0 tg0 rest0|h0 nm0 rest0|];
      cbn in Hroot; try discriminate.
    + inversion Hroot; subst. split; intros; rewrite H; reflexivity.
    + destruct (IH _ _ _ Hroot rel Hrel) as [Ha Hb].
      cbn iota. rewrite (is_nil_app _ _ Hrel), app_assoc.
      split; intros; rewrite andb_false_r; [apply Ha | apply Hb]; assumption.
    + destruct (is_nil rest0); discriminate.
Qed.

(** What [is_dir] and [is_symlink] answer for an entry the glob has listed. *)
Lemma kept_reachable (f : FS) (root c : Path) (T : node) (rel : Path) (x : node) :
  stat f root = Found c T -> names_unique T = true -> reachable T rel x ->
  kept f (root ++ rel) = negb (is_dir_node x) && negb (is_symlink_node x).
Proof.
  intros Hroot Hu Hr.
  pose proof (reachable_nonempty _ _ _ Hr) as Hne.
  pose proof (reachable_descend _ _ _ Hr Hu c) as Hd.
  destruct (resolve_below _ _ _ _ _ Hroot _ Hne) as [Ha Hb].
  unfold kept, fs_is_dir, fs_is_symlink, stat, lstat, resolve.
  destruct x as [i|r es|tgt].
  - rewrite !(Ha _ _ _ Hd). reflexivity.
  - rewrite (Ha _ _ true Hd). reflexivity.
  - destruct Hd as (h & nm & Hd). rewrite (Hb _ _ _ Hd).
    cbn. apply andb_false_r.
Qed.



(** The scan lists no path twice. *)

Lemma glob_below_shape (here : Path) (e : string * node) (p : Path) :
  In p (match snd e with
        | Dir _ _ => glob_rec (here ++ [fst e]) (snd e)
        | _ => []
        end) ->
  exists rel, rel <> [] /\ p = here ++ fst e :: rel.
Proof.
  destruct e as [name [i|r es|t]]; cbn [fst snd]; try contradiction.
  intros H. apply glob_rec_reachable in H as (rel & x & Hr & ->).
  exists rel. split; [apply (reachable_nonempty _ _ _ Hr)|].
  rewrite <- app_assoc. reflexivity.
Qed.

Lemma distinct_head (name : string) (l : list string) :
  negb (existsb (String.eqb name) l) = true -> ~ In name l.
Proof.
  intros H Hin. apply negb_true_iff in H.
  assert (existsb (String.eqb name) l = true) as E.
  { apply existsb_exists. exists name. split; [exact Hin | apply String.eqb_refl]. }
  congruence.
Qed.

Lemma glob_rec_NoDup (n : node) :
  names_unique n = true -> forall here, NoDup (glob_rec here n).
Proof.
  induction n as [i|t|r es IH] using node_induction; intros Hu here;
    try (cbn; constructor).
  destruct r; [|cbn; constructor].
  cbn [glob_rec]. cbn [names_unique] in Hu. apply andb_true_iff in Hu as [Hd Hall].
  apply NoDup_app.
  - (* the entries of this directory *)
    clear IH Hall. induction es as [|[name child] es IHes]; cbn; constructor.
    + cbn in Hd. apply andb_true_iff in Hd as [Hd _]. apply distinct_head in Hd.
      intros Hin. apply in_map_iff in Hin as ([name' child'] & Heq & Hin).
      cbn in Heq. apply app_inv_head in Heq. inversion Heq; subst.
      apply Hd. apply (in_map fst) in Hin. exact Hin.
    + apply IHes. cbn in Hd. apply andb_true_iff in Hd. tauto.
  - (* the entries below it *)
    induction es as [|[name child] es IHes]; cbn [flat_map]; [constructor|].
    cbn in Hd, Hall. apply andb_true_iff in Hd as [Hname Hd], Hall as [Hchild Hall].
    inversion IH as [|e es0 IHchild IHrest]; subst. cbn [snd] in IHchild.
    apply NoDup_app.
    + cbn [fst snd]. destruct child; try constructor. apply IHchild. exact Hchild.
    + apply IHes; assumption.
    + intros p Hp Hq.
      apply glob_below_shape in Hp as (rel & _ & ->).
      apply in_flat_map in Hq as (e' & Hin & Hq).
      apply glob_below_shape in Hq as (rel' & _ & Heq).
      apply app_inv_head in Heq. inversion Heq; subst.
      apply distinct_head in Hname. apply Hname.
      apply (in_map fst) in Hin. cbn [fst] in *. congruence.
  - intros p Hp Hq.
    apply in_map_iff in Hp as (e & <- & _).
    apply in_flat_map in Hq as (e' & _ & Hq).
    apply glob_below_shape in Hq as (rel & Hne & Heq).
    apply app_inv_head in Heq. inversion Heq; subst. congruence.
Qed.

Lemma scan_files_NoDup (f : FS) (root : Path) :
  (forall c T, stat f root = Found c T -> names_unique T = true) ->
  NoDup (scan_files f root).
Proof.
  intros H. unfold scan_files, fs_glob. apply NoDup_filter.
  destruct (stat f root) as [c T| |]; try constructor.
  apply glob_rec_NoDup. apply (H c T eq_refl).
Qed.

(** ** A root that cannot be scanned *)

Lemma scan_files_unlistable (f : FS) (root : Path) :
  listable f root = false -> fs_glob f root = [].
Proof.
  unfold listable, fs_glob.
  destruct (stat f root) as [c [i|[] es|t]| |]; cbn; congruence.
Qed.

(** C1, as the code has it. The scan asks [is_dir] of its root before
    anything else, outside any handler, and what becomes of a root it
    cannot list depends on how that goes. When looking the root up fails
    with an error pathlib does not take for a no, which is every errno but
    ENOENT, ENOTDIR, EBADF and ELOOP (ENAMETOOLONG for a path or a name
    over the limit), the [OSError] reaches the caller, and nothing has been
    logged: there the scan fails as the specification says. In every other
    case it raises nothing and returns the empty list, having logged its
    two counts: when the root is not there (ENOENT, ENOTDIR, ELOOP, or a
    NUL in the path), when it is no directory, and when it is a directory
    that refuses to be listed. The root is a plain path: its parts are
    names, and none of them is [..], which the tree does not resolve. *)
Theorem scan_of_root_that_cannot_be_listed
  (root : Path) (w : World)
  (Hplain : plain_path root = true)
  (Hroot : listable (fs w) root = false) :
  (forall e,
      os_stat (fs w) root = StatErrno e -> pathlib_ignores e = false ->
      list_files_recursively root w = (Raise (os_error e root), w))
  /\
  ((forall e, os_stat (fs w) root = StatErrno e -> pathlib_ignores e = true) ->
   list_files_recursively root w =
   (Ok [], mkWorld (fs w) (log w ++ empty_scan_log) (calls w))).
Proof.
  split.
  - intros e He Hi. rewrite list_files_recursively_eq.
    unfold scan_raises, pathlib_is_dir. rewrite He, Hi. reflexivity.
  - intros Hquiet.
    assert (scan_raises (fs w) root = None) as Hn.
    { unfold scan_raises, pathlib_is_dir.
      destruct (os_stat (fs w) root) as [[i|r es|t]|e|]; try reflexivity.
      rewrite (Hquiet e eq_refl). reflexivity. }
    rewrite list_files_recursively_eq, Hn. unfold scan_log, scan_files.
    rewrite (scan_files_unlistable _ _ Hroot). reflexivity.
Qed.

Lemma scan_of_root_that_cannot_be_listed_example :
  list_files_recursively ["downloads"; long_name] world0
  = (Raise (os_error ENAMETOOLONG ["downloads"; long_name]), world0)
  /\
  list_files_recursively ["missing"] world0
  = (Ok [], mkWorld (fs world0) (log world0 ++ empty_scan_log) (calls world0))
  /\
  list_files_recursively (show ++ ["ep1.mkv"]) world0
  = (Ok [], mkWorld (fs world0) (log world0 ++ empty_scan_log) (calls world0))
  /\
  list_files_recursively (show ++ ["secret"]) world0
  = (Ok [], mkWorld (fs world0) (log world0 ++ empty_scan_log) (calls world0)).
Proof.
  split; [|split; [|split]].
  - apply (scan_of_root_that_cannot_be_listed ["downloads"; long_name] world0).
    + vm_compute. reflexivity.
    + vm_compute. reflexivity.
    + vm_compute. reflexivity.
    + reflexivity.
  - apply (scan_of_root_that_cannot_be_listed ["missing"] world0).
    + reflexivity.
    + vm_compute. reflexivity.
    + intros e H. vm_compute in H. inversion H. reflexivity.
  - apply (scan_of_root_that_cannot_be_listed (show ++ ["ep1.mkv"]) world0).
    + reflexivity.
    + vm_compute. reflexivity.
    + intros e H. vm_compute in H. discriminate H.
  - apply (scan_of_root_that_cannot_be_listed (show ++ ["secret"]) world0).
    + reflexivity.
    + vm_compute. reflexivity.
    + intros e H. vm_compute in H. discriminate H.
Defined.

(** C1, as the specification words it, fails: the root [/missing] does not
    exist, and the scan returns a list instead of raising. *)
Lemma scan_of_missing_root_does_not_fail :
  fs_exists (fs world0) ["missing"] = false /\
  fst (list_files_recursively ["missing"] world0) = Ok [] /\
  ~ (exists e w', list_files_recursively ["missing"] world0 = (Raise e, w')).
Proof.
  split; [reflexivity|]. split; [reflexivity|].
  intros (e & w' & H). rewrite list_files_recursively_eq in H.
  vm_compute in H. discriminate H.
Qed.

(** ** The classifier *)

Section Classifier.

Variable guess_type : string -> option string * option string.

Lemma classify_one_eq (file : Path) (v s : list Path) (w : World) :
  classify_one guess_type file (v, s) w =
  (Ok (v ++ filter (is_video guess_type) [file],
       s ++ filter (is_subtitle guess_type) [file]),
   mkWorld (fs w) (log w ++ classify_note guess_type file) (calls w)).
Proof.
  unfold classify_one, is_video, is_subtitle, classify_note, rule. cbn [filter].
  destruct (fst (guess_type (path_str file))) as [t|].
  - destruct (startswith t "video").
    + unfold bind, log_debug, emit, ret. cbn. rewrite app_nil_r. reflexivity.
    + destruct (startswith t "text" && String.eqb (path_suffix file) ".srt").
      * unfold bind, log_debug, emit, ret. cbn. rewrite app_nil_r. reflexivity.
      * unfold bind, log_debug, emit, ret. cbn. rewrite !app_nil_r. reflexivity.
  - unfold ret. rewrite !app_nil_r, world_eta. reflexivity.
Qed.

Lemma classify_loop (l v s : list Path) (w : World) :
  for_fold l (v, s) (classify_one guess_type) w =
  (Ok (v ++ filter (is_video guess_type) l, s ++ filter (is_subtitle guess_type) l),
   mkWorld (fs w) (log w ++ flat_map (classify_note guess_type) l) (calls w)).
Proof.
  revert v s w. induction l as [|x l IH]; intros v s w.
  - cbn. rewrite !app_nil_r, world_eta. reflexivity.
  - cbn [for_fold]. erewrite bind_ok by apply classify_one_eq.
    rewrite IH. cbn [fs log calls flat_map].
    rewrite <- !app_assoc. f_equal. f_equal.
    cbn [filter].
    destruct (is_video guess_type x), (is_subtitle guess_type x); reflexivity.
Qed.

Lemma classify_follows_the_rule_eq (all_files : list Path) (w : World) :
  classify guess_type all_files w =
  (Ok (filter (is_video guess_type) all_files,
       filter (is_subtitle guess_type) all_files),
   mkWorld (fs w) (log w ++ flat_map (classify_note guess_type) all_files) (calls w)).
Proof. apply (classify_loop all_files [] [] w). Qed.

(** C5. The classification loop, run on any list of paths, returns the
    files the rule calls videos and the files it calls subtitles, each list
    in the order of the input ([filter] keeps the order); it touches neither
    the file system nor the extractor. The rule for one file reads: no type
    detected, neither; a type that starts with "video", video; otherwise a
    type that starts with "text" and a suffix equal to ".srt", compared as
    it stands, subtitle; otherwise neither. The code tests the major
    category as a prefix of the type. *)
Theorem classify_follows_the_rule (all_files : list Path) (w : World) :
  classify guess_type all_files w =
  (Ok (filter (is_video guess_type) all_files,
       filter (is_subtitle guess_type) all_files),
   mkWorld (fs w) (log w ++ flat_map (classify_note guess_type) all_files) (calls w))
  /\
  (forall file,
      is_video guess_type file = true <->
      exists t, fst (guess_type (path_str file)) = Some t /\
                startswith t "video" = true)
  /\
  (forall file,
      is_subtitle guess_type file = true <->
      exists t, fst (guess_type (path_str file)) = Some t /\
                startswith t "video" = false /\
                startswith t "text" = true /\
                path_suffix file = ".srt").
Proof.
  split; [apply (classify_loop all_files [] [] w)|].
  split; intros file; unfold is_video, is_subtitle, rule;
    destruct (fst (guess_type (path_str file))) as [t|].
  - destruct (startswith t "video") eqn:Hv.
    + split; eauto.
    + split; [|intros (t' & Ht & Hv'); inversion Ht; subst; congruence].
      destruct (startswith t "text" && String.eqb (path_suffix file) ".srt");
        discriminate.
  - split; [discriminate | intros (t & Ht & _); discriminate].
  - destruct (startswith t "video") eqn:Hv.
    + split; [discriminate|].
      intros (t' & Ht & Hv' & _); inversion Ht; subst; congruence.
    + destruct (startswith t "text") eqn:Htx; cbn [andb].
      * destruct (String.eqb_spec (path_suffix file) ".srt") as [Hs|Hs].
        -- split; eauto 6.
        -- split; [discriminate|].
           intros (t' & Ht & _ & _ & Hs'). contradiction.
      * split; [discriminate|].
        intros (t' & Ht & _ & Htx' & _); inversion Ht; subst; congruence.
  - split; [discriminate | intros (t & Ht & _); discriminate].
Qed.

Lemma video_not_subtitle (x : Path) :
  is_video guess_type x = true -> is_subtitle guess_type x = false.
Proof. unfold is_video, is_subtitle. destruct (rule guess_type x); congruence. Qed.

End Classifier.

(** The examples of the specification. *)
Example movie_is_video : rule (table_guess_type posix_types) ["movie.mp4"] = Video.
Proof. reflexivity. Qed.

Example show_srt_is_subtitle : rule (table_guess_type posix_types) ["show.srt"] = Subtitle.
Proof. reflexivity. Qed.

Example show_txt_is_neither : rule (table_guess_type posix_types) ["show.txt"] = Neither.
Proof. reflexivity. Qed.

Example archive_is_neither : rule (table_guess_type posix_types) ["archive.zip"] = Neither.
Proof. reflexivity. Qed.

Example upper_case_srt_is_neither :
  fst (table_guess_type posix_types (path_str ["show.SRT"])) = Some "text/plain" /\
  rule (table_guess_type posix_types) ["show.SRT"] = Neither.
Proof. split; reflexivity. Qed.

(** ** The archive expander *)

Section Expander.

Variable guess_type : string -> option string * option string.
Variable extract_archive : string -> string -> FS -> Outcome unit * FS.

(** The five ways through the loop body. *)

Lemma extract_one_stat_fails (file : Path) (w : World) (e : exn) :
  fs_stat_size (fs w) file = Raise e ->
  extract_one guess_type extract_archive file w = (Raise e, w).
Proof.
  intros H. unfold extract_one, bind, stat_size.
  rewrite H. reflexivity.
Qed.

Lemma extract_one_not_archive (file : Path) (w : World) (size : nat) :
  fs_stat_size (fs w) file = Ok size ->
  is_archive guess_type file = false ->
  extract_one guess_type extract_archive file w =
  (Ok tt,
   mkWorld (fs w)
           (log w ++ [(DEBUG, "File: " +++ path_str file +++ ", Size: " +++ str_nat size
                              +++ " bytes, Type: "
                              +++ repr_pair (guess_type (path_str file)))])
           (calls w)).
Proof.
  intros Hs Ha. unfold extract_one, bind, stat_size.
  rewrite Hs. unfold log_debug, emit.
  unfold is_archive in Ha. rewrite Ha. reflexivity.
Qed.

Lemma extract_one_archive (file : Path) (w : World) (size : nat)
      (r : Outcome unit) (f' : FS) :
  fs_stat_size (fs w) file = Ok size ->
  is_archive guess_type file = true ->
  extract_archive (path_str file) (path_str (path_parent file)) (fs w) = (r, f') ->
  extract_one guess_type extract_archive file w =
  match r with
  | Ok _ =>
      (Ok tt, mkWorld f' (log w ++ extract_notes guess_type file size)
                      (calls w ++ [call_of file]))
  | Raise e =>
      if is_PatoolError e then
        (Ok tt, mkWorld f' (log w ++ extract_notes guess_type file size
                                  ++ [extract_failed file e])
                        (calls w ++ [call_of file]))
      else
        (Raise e, mkWorld f' (log w ++ extract_notes guess_type file size)
                          (calls w ++ [call_of file]))
  end.
Proof.
  intros Hs Ha Hx. unfold extract_one, bind, stat_size.
  rewrite Hs. unfold log_debug, log_info, emit.
  unfold is_archive in Ha. rewrite Ha.
  unfold try_except, patool_extract. cbn [fs log calls]. rewrite Hx.
  unfold extract_notes, call_of. rewrite <- !app_assoc. cbn [app].
  destruct r as [[]|e]; [reflexivity|].
  destruct (is_PatoolError e); [|reflexivity].
  unfold log_error, emit. cbn [fs log calls snd extract_failed].
  rewrite <- !app_assoc. reflexivity.
Qed.

(** Whatever happens to one file, the extractor is called at most once for it,
    and exactly once, with the file and its parent directory, when the body
    completes on an archive. *)
Lemma extract_one_calls (file : Path) (w : World) :
  match extract_one guess_type extract_archive file w with
  | (Ok _, w') => calls w' = calls w ++ map call_of (filter (is_archive guess_type) [file])
  | (Raise _, w') => calls w' = calls w \/ calls w' = calls w ++ [call_of file]
  end.
Proof.
  destruct (fs_stat_size (fs w) file) as [size|e] eqn:Hs.
  2:{ rewrite (extract_one_stat_fails _ _ _ Hs). left. reflexivity. }
  cbn [filter]. destruct (is_archive guess_type file) eqn:Ha.
  - destruct (extract_archive (path_str file) (path_str (path_parent file)) (fs w))
      as [r f'] eqn:Hx.
    rewrite (extract_one_archive _ _ _ _ _ Hs Ha Hx).
    destruct r as [[]|e]; [reflexivity|].
    destruct (is_PatoolError e); [reflexivity | right; reflexivity].
  - rewrite (extract_one_not_archive _ _ _ Hs Ha). cbn. symmetry. apply app_nil_r.
Qed.

(** A batch that completes has called the extractor once for each archive
    of the batch, in order, and for nothing else. *)
Lemma extract_archives_calls (files : list Path) :
  forall w w',
    extract_archives guess_type extract_archive files w = (Ok tt, w') ->
    calls w' = calls w ++ map call_of (filter (is_archive guess_type) files).
Proof.
  induction files as [|file files IH]; intros w w' H.
  - cbn in H. inversion H. symmetry. apply app_nil_r.
  - unfold extract_archives in H.
    rewrite for_each_cons in H.
    pose proof (extract_one_calls file w) as Hc.
    fold (extract_one guess_type extract_archive) in H.
    destruct (extract_one guess_type extract_archive file w) as [[[]|e] w1]; [|discriminate].
    apply IH in H. rewrite H, Hc, <- app_assoc, <- map_app.
    f_equal. f_equal. cbn [filter]. destruct (is_archive guess_type file); reflexivity.
Qed.

Lemma extract_archives_app (pre rest : list Path) (w : World) :
  extract_archives guess_type extract_archive (pre ++ rest) w =
  match extract_archives guess_type extract_archive pre w with
  | (Ok _, w1) => extract_archives guess_type extract_archive rest w1
  | (Raise e, w1) => (Raise e, w1)
  end.
Proof. apply for_each_app. Qed.

(** C6. Wherever in a batch an archive stands, if the batch has come as far
    as this archive and its extraction raises a [PatoolError], then the
    error is logged, the extractor has been called once for the archive and
    is not called for it again, and the batch goes on: the rest of the files
    are handled exactly as a batch of their own, from the file system the
    failed extraction left. *)
Theorem extraction_failure_does_not_stop_the_batch
  (pre rest : list Path) (file : Path) (w w1 : World)
  (size : nat) (e : exn) (f' : FS)
  (Hpre : extract_archives guess_type extract_archive pre w = (Ok tt, w1))
  (Hsize : fs_stat_size (fs w1) file = Ok size)
  (Harchive : is_archive guess_type file = true)
  (Hfail : extract_archive (path_str file) (path_str (path_parent file)) (fs w1)
           = (Raise e, f'))
  (Hpatool : is_PatoolError e = true) :
  extract_archives guess_type extract_archive (pre ++ file :: rest) w =
  extract_archives guess_type extract_archive rest
    (mkWorld f'
             (log w1 ++ extract_notes guess_type file size ++ [extract_failed file e])
             (calls w1 ++ [call_of file])).
Proof.
  rewrite extract_archives_app, Hpre.
  unfold extract_archives. rewrite for_each_cons.
  fold (extract_one guess_type extract_archive). rewrite (extract_one_archive _ _ _ _ _ Hsize Harchive Hfail).
  rewrite Hpatool. reflexivity.
Qed.

(** C9. Wherever in a batch a file stands, if the batch has come as far as
    this file, then an exception from its [stat] leaves the batch at once,
    and so does any exception from the extractor that is not a
    [PatoolError]: the exception is the result of the whole batch, whatever
    files follow, and none of them is looked at. *)
Theorem other_exceptions_stop_the_batch
  (pre rest : list Path) (file : Path) (w w1 : World)
  (Hpre : extract_archives guess_type extract_archive pre w = (Ok tt, w1)) :
  (forall e,
      fs_stat_size (fs w1) file = Raise e ->
      extract_archives guess_type extract_archive (pre ++ file :: rest) w = (Raise e, w1))
  /\
  (forall size e f',
      fs_stat_size (fs w1) file = Ok size ->
      is_archive guess_type file = true ->
      extract_archive (path_str file) (path_str (path_parent file)) (fs w1)
      = (Raise e, f') ->
      is_PatoolError e = false ->
      extract_archives guess_type extract_archive (pre ++ file :: rest) w =
      (Raise e,
       mkWorld f' (log w1 ++ extract_notes guess_type file size)
               (calls w1 ++ [call_of file]))).
Proof.
  split.
  - intros e Hs. rewrite extract_archives_app, Hpre.
    unfold extract_archives. rewrite for_each_cons.
    fold (extract_one guess_type extract_archive). rewrite (extract_one_stat_fails _ _ _ Hs). reflexivity.
  - intros size e f' Hs Ha Hx He. rewrite extract_archives_app, Hpre.
    unfold extract_archives. rewrite for_each_cons.
    fold (extract_one guess_type extract_archive). rewrite (extract_one_archive _ _ _ _ _ Hs Ha Hx).
    rewrite He. reflexivity.
Qed.

(** The two types the set literal was meant to hold are not in it. *)
Lemma compressed_zip_types_missing (file : Path) :
  fst (guess_type (path_str file)) = Some "application/x-zip-compressed" \/
  fst (guess_type (path_str file)) = Some "application/x-compressed" ->
  is_archive guess_type file = false.
Proof.
  unfold is_archive. intros [H|H]; rewrite H; reflexivity.
Qed.

End Expander.

Lemma extraction_failure_example :
  extract_archives (table_guess_type posix_types) patool_rejects
    ([show ++ ["ep1.mkv"]] ++ (show ++ ["pack.zip"]) :: [show ++ ["subs"; "ep1.srt"]])
    world0 =
  extract_archives (table_guess_type posix_types) patool_rejects
    [show ++ ["subs"; "ep1.srt"]]
    (mkWorld disk
       (log after_video
        ++ extract_notes (table_guess_type posix_types) (show ++ ["pack.zip"]) 1
        ++ [extract_failed (show ++ ["pack.zip"]) (PatoolError "bad archive")])
       (calls after_video ++ [call_of (show ++ ["pack.zip"])])).
Proof.
  apply (extraction_failure_does_not_stop_the_batch
           (table_guess_type posix_types) patool_rejects
           [show ++ ["ep1.mkv"]] [show ++ ["subs"; "ep1.srt"]] (show ++ ["pack.zip"])
           world0 after_video 1 (PatoolError "bad archive") disk);
    reflexivity.
Defined.

Lemma other_exceptions_example :
  extract_archives (table_guess_type posix_types) patool_crashes
    ([show ++ ["ep1.mkv"]] ++ (show ++ ["gone.zip"]) :: [show ++ ["pack.zip"]])
    world0 =
  (Raise (os_error ENOENT (show ++ ["gone.zip"])), after_video)
  /\
  extract_archives (table_guess_type posix_types) patool_crashes
    ([show ++ ["ep1.mkv"]] ++ (show ++ ["pack.zip"]) :: [show ++ ["subs"; "ep1.srt"]])
    world0 =
  (Raise (OtherException "KeyError" "format"),
   mkWorld disk
     (log after_video
      ++ extract_notes (table_guess_type posix_types) (show ++ ["pack.zip"]) 1)
     (calls after_video ++ [call_of (show ++ ["pack.zip"])])).
Proof.
  split.
  - apply (proj1 (other_exceptions_stop_the_batch
                    (table_guess_type posix_types) patool_crashes
                    [show ++ ["ep1.mkv"]] [show ++ ["pack.zip"]] (show ++ ["gone.zip"])
                    world0 after_video eq_refl)).
    reflexivity.
  - apply (proj2 (other_exceptions_stop_the_batch
                    (table_guess_type posix_types) patool_crashes
                    [show ++ ["ep1.mkv"]] [show ++ ["subs"; "ep1.srt"]]
                    (show ++ ["pack.zip"])
                    world0 after_video eq_refl));
      reflexivity.
Defined.

(** C2, where the code departs from it. On a host whose type table gives
    [.zip] the type application/x-zip-compressed, the file is sniffed as the
    compressed-zip variant, and the expander finishes without calling the
    extractor at all: the set holds the two variant names glued into one
    string, and neither of them alone. *)
Theorem compressed_zip_is_not_extracted :
  fst (table_guess_type windows_types (path_str (show ++ ["pack.zip"])))
  = Some "application/x-zip-compressed" /\
  existsb (String.eqb "application/x-zip-compressed") archive_types = false /\
  existsb (String.eqb "application/x-compressed") archive_types = false /\
  exists w',
    extract_archives (table_guess_type windows_types) patool_noop
                     [show ++ ["pack.zip"]] world0 = (Ok tt, w') /\
    calls w' = [] /\ fs w' = fs world0.
Proof.
  split; [reflexivity|]. split; [reflexivity|]. split; [reflexivity|].
  eexists. split; [reflexivity|]. split; reflexivity.
Qed.

(** With the type the POSIX table gives, the same file is extracted. *)
Example plain_zip_is_extracted :
  exists w',
    extract_archives (table_guess_type posix_types) patool_noop
                     [show ++ ["pack.zip"]] world0 = (Ok tt, w') /\
    calls w' = [("/downloads/Show/pack.zip", "/downloads/Show")].
Proof. eexists. split; reflexivity. Qed.

(** ** Creating a name *)

Lemma lookup_put_same (nm : string) (x : node) (es : list (string * node)) :
  lookup_entry nm (put_entry nm x es) = Some x.
Proof.
  induction es as [|[k v] es IH]; cbn.
  - rewrite String.eqb_refl. reflexivity.
  - destruct (String.eqb k nm) eqn:E; cbn; rewrite E; [reflexivity | exact IH].
Qed.

Lemma lookup_put_other (a nm : string) (x : node) (es : list (string * node)) :
  a <> nm -> lookup_entry a (put_entry nm x es) = lookup_entry a es.
Proof.
  intros Hne. induction es as [|[k v] es IH]; cbn.
  - destruct (String.eqb_spec nm a); [congruence | reflexivity].
  - destruct (String.eqb_spec k nm) as [->|Hk]; cbn.
    + destruct (String.eqb_spec nm a); [congruence | reflexivity].
    + destruct (String.eqb k a); [reflexivity | exact IH].
Qed.

Lemma lookup_map_same (nm : string) (f : node -> node) (es : list (string * node)) :
  lookup_entry nm (map_entry nm f es) = option_map f (lookup_entry nm es).
Proof.
  induction es as [|[k v] es IH]; cbn; [reflexivity|].
  destruct (String.eqb k nm) eqn:E; cbn; rewrite E; [reflexivity | exact IH].
Qed.

Lemma lookup_map_other (a nm : string) (f : node -> node) (es : list (string * node)) :
  a <> nm -> lookup_entry a (map_entry nm f es) = lookup_entry a es.
Proof.
  intros Hne. induction es as [|[k v] es IH]; cbn; [reflexivity|].
  destruct (String.eqb_spec k nm) as [->|Hk]; cbn.
  - destruct (String.eqb_spec nm a); [congruence | reflexivity].
  - destruct (String.eqb k a); [reflexivity | exact IH].
Qed.

Lemma tree_update_not_symlink (u : Path) (v : option node) (n : node) :
  is_symlink_node n = false -> is_symlink_node (tree_update u v n) = false.
Proof.
  intros H. destruct u as [|a u]; [exact H|].
  destruct n as [i|r es|t]; cbn; try reflexivity; try discriminate.
  destruct u; [destruct v|]; reflexivity.
Qed.

(** A walk that ends on a node has walked the whole path. *)
Lemma descend_reached_here (p : Path) :
  forall t h here n, descend t h p = Reached here n -> here = h ++ p.
Proof.
  induction p as [|a p IH]; intros t h here n H; cbn in H.
  - inversion H. symmetry. apply app_nil_r.
  - destruct t as [i|r es|tg]; try discriminate.
    destruct (lookup_entry a es) as [[i|r' es'|tg]|]; try discriminate;
      apply IH in H; rewrite <- app_assoc in H; exact H.
Qed.

(** A walk that misses a name stood in a directory without that name. *)
Lemma descend_missing_inv (p : Path) :
  forall t h here nm rest,
    descend t h p = Missing here nm rest ->
    exists q r es,
      p = q ++ nm :: rest /\ here = h ++ q /\
      descend t h q = Reached here (Dir r es) /\ lookup_entry nm es = None.
Proof.
  induction p as [|a p IH]; intros t h here nm rest H; cbn in H; [discriminate|].
  destruct t as [i|r es|tg]; try discriminate.
  destruct (lookup_entry a es) as [c|] eqn:Hl.
  - assert (descend c (h ++ [a]) p = Missing here nm rest /\ is_symlink_node c = false)
      as [H' Hc] by (destruct c; [auto| auto | discriminate]).
    apply IH in H' as (q & r' & es' & -> & -> & Hq & Hn).
    exists (a :: q), r', es'. rewrite <- app_assoc. repeat split; [|exact Hn].
    cbn. rewrite Hl. rewrite <- app_assoc in Hq. destruct c; [exact Hq | exact Hq | discriminate].
  - inversion H; subst. exists [], r, es. rewrite app_nil_r. auto.
Qed.

Lemma descend_insert (q : Path) (nm : string) (x : node) :
  is_symlink_node x = false ->
  forall t h here r es,
    descend t h q = Reached here (Dir r es) ->
    descend (tree_update (q ++ [nm]) (Some x) t) h (q ++ [nm])
    = Reached (h ++ q ++ [nm]) x.
Proof.
  intros Hx. induction q as [|a q IH]; intros t h here r es H.
  - cbn in H. inversion H; subst. cbn. rewrite lookup_put_same.
    destruct x; [reflexivity | reflexivity | discriminate].
  - cbn in H. destruct t as [i|r0 es0|tg]; try discriminate.
    destruct (lookup_entry a es0) as [c|] eqn:Hl; [|discriminate].
    assert (descend c (h ++ [a]) q = Reached here (Dir r es) /\ is_symlink_node c = false)
      as [H' Hc] by (destruct c; [auto | auto | discriminate]).
    specialize (IH _ _ _ _ _ H').
    assert (tree_update ((a :: q) ++ [nm]) (Some x) (Dir r0 es0)
            = Dir r0 (map_entry a (tree_update (q ++ [nm]) (Some x)) es0)) as ->.
    { cbn. destruct q; reflexivity. }
    rewrite <- app_comm_cons. cbn [descend]. rewrite lookup_map_same, Hl. cbn [option_map].
    pose proof (tree_update_not_symlink (q ++ [nm]) (Some x) c Hc) as Hs.
    rewrite <- app_assoc in IH. cbn [app] in IH.
    destruct (tree_update (q ++ [nm]) (Some x) c); [exact IH | exact IH | discriminate].
Qed.

(** Creating a name that was missing leaves alone every walk that ran into a
    symbolic link. *)
Lemma descend_insert_link (x : node) (p : Path) :
  forall t h u h2 hm nmm here nm tgt rest,
    descend t h2 u = Missing hm nmm [] ->
    descend t h p = Link here nm tgt rest ->
    descend (tree_update u (Some x) t) h p = Link here nm tgt rest.
Proof.
  induction p as [|a p IH]; intros t h u h2 hm nmm here nm tgt rest Hu Hp;
    cbn in Hp; [discriminate|].
  destruct t as [i|r es|tg]; try discriminate.
  destruct u as [|b u]; [discriminate|]. cbn in Hu.
  destruct (lookup_entry a es) as [c|] eqn:Ha; [|discriminate].
  destruct u as [|b' u].
  - (* the new name goes into this directory *)
    assert (lookup_entry b es = None) as Hb.
    { destruct (lookup_entry b es) as [[i|r' es'|tg]|]; [discriminate..| reflexivity]. }
    assert (a <> b) as Hab by congruence.
    cbn. rewrite (lookup_put_other _ _ _ _ Hab), Ha. exact Hp.
  - assert (tree_update (b :: b' :: u) (Some x) (Dir r es)
            = Dir r (map_entry b (tree_update (b' :: u) (Some x)) es)) as -> by reflexivity.
    cbn [descend].
    destruct (String.eqb_spec a b) as [->|Hab].
    + rewrite lookup_map_same, Ha. cbn [option_map]. rewrite Ha in Hu.
      destruct c as [i|r' es'|tg].
      * cbn in Hu. discriminate.
      * assert (is_symlink_node (tree_update (b' :: u) (Some x) (Dir r' es')) = false) as Hs
            by (apply tree_update_not_symlink; reflexivity).
        specialize (IH _ (h ++ [b]) _ _ _ _ _ _ _ _ Hu Hp).
        destruct (tree_update (b' :: u) (Some x) (Dir r' es'));
          [exact IH | exact IH | discriminate].
      * discriminate.
    + rewrite (lookup_map_other _ _ _ _ Hab), Ha. exact Hp.
Qed.

(** The free name a lookup reports is free where it says. *)
Lemma resolve_absent_fresh (fuel : nat) (t : node) (follow : bool) :
  forall p parent name,
    resolve_fuel fuel t follow p = Absent parent name ->
    descend t [] (parent ++ [name]) = Missing parent name [].
Proof.
  assert (forall p parent name rest,
             descend t [] p = Missing parent name rest ->
             descend t [] (parent ++ [name]) = Missing parent name []) as Hmiss.
  { intros p parent name rest Hd.
    apply descend_missing_inv in Hd as (q & r & es & -> & Hh & Hq & Hn).
    cbn in Hh; subst. rewrite descend_app, Hq. cbn. rewrite Hn. reflexivity. }
  induction fuel as [|fuel IH]; intros p parent name H; cbn [resolve_fuel] in H;
    destruct (descend t [] p) as [h0 n0|h0 nm0 tg0 rest0|h0 nm0 rest0|] eqn:Hd;
    try discriminate.
  - destruct (negb follow && is_nil rest0); discriminate.
  - destruct (is_nil rest0); [|discriminate]. inversion H; subst. eapply Hmiss, Hd.
  - destruct (negb follow && is_nil rest0); [discriminate|]. eapply IH, H.
  - destruct (is_nil rest0); [|discriminate]. inversion H; subst. eapply Hmiss, Hd.
Qed.

(** A path whose last name is free resolves, once that name is created, to
    the node created. *)
Lemma resolve_created (x : node) (Hx : is_symlink_node x = false)
      (fuel : nat) (t : node) (follow : bool) :
  forall p parent name,
    resolve_fuel fuel t follow p = Absent parent name ->
    resolve_fuel fuel (tree_update (parent ++ [name]) (Some x) t) follow p
    = Found (parent ++ [name]) x.
Proof.
  assert (forall p parent name,
             descend t [] p = Missing parent name [] ->
             descend (tree_update (parent ++ [name]) (Some x) t) [] p
             = Reached (parent ++ [name]) x) as Hmiss.
  { intros p parent name Hd.
    apply descend_missing_inv in Hd as (q & r & es & -> & Hh & Hq & Hn).
    cbn in Hh; subst. apply (descend_insert _ _ _ Hx _ _ _ _ _ Hq). }
  induction fuel as [|fuel IH]; intros p parent name H;
    pose proof (resolve_absent_fresh _ _ _ _ _ _ H) as Hfresh;
    cbn [resolve_fuel] in *;
    destruct (descend t [] p) as [h0 n0|h0 nm0 tg0 rest0|h0 nm0 rest0|] eqn:Hd;
    try discriminate.
  - destruct (negb follow && is_nil rest0); discriminate.
  - destruct rest0; [|discriminate]. inversion H; subst.
    rewrite (Hmiss _ _ _ Hd). reflexivity.
  - rewrite (descend_insert_link x _ _ _ _ _ _ _ _ _ _ _ Hfresh Hd).
    destruct (negb follow && is_nil rest0); [discriminate|]. apply IH, H.
  - destruct rest0; [|discriminate]. inversion H; subst.
    rewrite (Hmiss _ _ _ Hd). reflexivity.
Qed.

(** [shutil.copy] copies the bytes: when it succeeds, the path it returns
    reads as the source read before. *)
Lemma fs_copy_bytes (f f' : FS) (src dst d : Path) :
  fs_copy f src dst = (Ok d, f') ->
  exists data, fs_read f src = Some data /\ fs_read f' d = Some data.
Proof.
  unfold fs_copy, fs_read.
  set (dst' := if fs_is_dir f dst then dst ++ [path_name src] else dst).
  destruct (same_file f src dst'); [discriminate|].
  destruct (stat f src) as [c [i|r es|tg]|pa nm|er]; try discriminate.
  destruct (stat f dst') as [c' [j|r es|tg]|pa nm|er] eqn:Hd; try discriminate.
  - intros H; inversion H; subst. eexists. split; [reflexivity|].
    unfold stat, resolve in *. cbn [tree inodes]. rewrite Hd.
    unfold write_inode. cbn. rewrite Nat.eqb_refl. reflexivity.
  - intros H; inversion H; subst. eexists. split; [reflexivity|].
    unfold stat, resolve in *. cbn [tree inodes].
    rewrite (resolve_created (File (fresh_inode (inodes f))) eq_refl _ _ _ _ _ _ Hd).
    unfold write_inode. cbn. rewrite Nat.eqb_refl. reflexivity.
Qed.

(** ** Removing a name *)

Lemma lookup_remove_same (nm : string) (es : list (string * node)) :
  lookup_entry nm (remove_entry nm es) = None.
Proof.
  induction es as [|[k v] es IH]; cbn; [reflexivity|].
  destruct (String.eqb k nm) eqn:E; cbn; [|rewrite E]; exact IH.
Qed.

Lemma lookup_remove_other (a nm : string) (es : list (string * node)) :
  a <> nm -> lookup_entry a (remove_entry nm es) = lookup_entry a es.
Proof.
  intros Hne. induction es as [|[k v] es IH]; cbn; [reflexivity|].
  destruct (String.eqb_spec k nm) as [->|Hk]; cbn.
  - destruct (String.eqb_spec nm a); [congruence | exact IH].
  - destruct (String.eqb k a); [reflexivity | exact IH].
Qed.

Lemma survives_refl (d : descent) : survives d d.
Proof. destruct d; cbn; eauto. Qed.

Lemma descend_remove (p : Path) :
  forall t h c, survives (descend t h p) (descend (tree_update c None t) h p).
Proof.
  induction p as [|a p IH]; intros t h c.
  - cbn. eauto.
  - destruct c as [|b c]; [apply survives_refl|].
    destruct t as [i|r es|tg]; try apply survives_refl.
    destruct c as [|b' c].
    + cbn. destruct (String.eqb_spec a b) as [->|Hab].
      * rewrite lookup_remove_same. exact I.
      * rewrite (lookup_remove_other _ _ _ Hab). apply survives_refl.
    + assert (tree_update (b :: b' :: c) None (Dir r es)
              = Dir r (map_entry b (tree_update (b' :: c) None) es)) as -> by reflexivity.
      cbn [descend]. destruct (String.eqb_spec a b) as [->|Hab].
      * rewrite lookup_map_same.
        destruct (lookup_entry b es) as [[i|r' es'|tg]|]; cbn [option_map].
        -- apply survives_refl.
        -- specialize (IH (Dir r' es') (h ++ [b]) (b' :: c)).
           assert (is_symlink_node (tree_update (b' :: c) None (Dir r' es')) = false) as Hs
               by (apply tree_update_not_symlink; reflexivity).
           destruct (tree_update (b' :: c) None (Dir r' es'));
             [exact IH | exact IH | discriminate].
        -- cbn. reflexivity.
        -- exact I.
      * rewrite (lookup_map_other _ _ _ _ Hab). apply survives_refl.
Qed.

(** What resolves after a removal resolved before, to the same place. *)
Lemma resolve_remove (c : Path) (fuel : nat) (t : node) (follow : bool) :
  forall p c' n',
    resolve_fuel fuel (tree_update c None t) follow p = Found c' n' ->
    exists n, resolve_fuel fuel t follow p = Found c' n.
Proof.
  induction fuel as [|fuel IH]; intros p c' n' H; cbn [resolve_fuel] in *;
    pose proof (descend_remove p t [] c) as Hs;
    destruct (descend (tree_update c None t) [] p) as [h0 n0|h0 nm0 tg0 rest0|h0 nm0 rest0|];
    cbn in Hs; try discriminate.
  - destruct Hs as (n & ->). inversion H; subst. eauto.
  - rewrite Hs. destruct (negb follow && is_nil rest0); [|discriminate].
    inversion H; subst. eauto.
  - destruct (is_nil rest0); discriminate.
  - destruct Hs as (n & ->). inversion H; subst. eauto.
  - rewrite Hs. destruct (negb follow && is_nil rest0).
    + inversion H; subst. eauto.
    + apply (IH _ _ _ H).
  - destruct (is_nil rest0); discriminate.
Qed.

Lemma descend_link_inv (p : Path) :
  forall t h here nm tgt rest,
    descend t h p = Link here nm tgt rest ->
    exists q r es,
      p = q ++ nm :: rest /\ here = h ++ q /\
      descend t h q = Reached here (Dir r es) /\
      lookup_entry nm es = Some (Symlink tgt).
Proof.
  induction p as [|a p IH]; intros t h here nm tgt rest H; cbn in H; [discriminate|].
  destruct t as [i|r es|tg]; try discriminate.
  destruct (lookup_entry a es) as [c|] eqn:Hl; [|discriminate].
  destruct c as [i|r' es'|tg].
  - apply IH in H as (q & r0 & es0 & -> & -> & Hq & Hn).
    exists (a :: q), r0, es0. rewrite <- app_assoc. repeat split; [|exact Hn].
    cbn. rewrite Hl. rewrite <- app_assoc in Hq. exact Hq.
  - apply IH in H as (q & r0 & es0 & -> & -> & Hq & Hn).
    exists (a :: q), r0, es0. rewrite <- app_assoc. repeat split; [|exact Hn].
    cbn. rewrite Hl. rewrite <- app_assoc in Hq. exact Hq.
  - inversion H; subst. exists [], r, es. rewrite app_nil_r. auto.
Qed.

(** The place a lookup reports is a path that walks to the node without
    crossing a link, or onto the link itself. *)
Lemma resolve_canonical (fuel : nat) (t : node) (follow : bool) :
  forall p c n,
    resolve_fuel fuel t follow p = Found c n ->
    descend t [] c = Reached c n \/
    exists h nm tgt, c = h ++ [nm] /\ descend t [] c = Link h nm tgt [].
Proof.
  induction fuel as [|fuel IH]; intros p c n H; cbn [resolve_fuel] in H;
    destruct (descend t [] p) as [h0 n0|h0 nm0 tg0 rest0|h0 nm0 rest0|] eqn:Hd;
    try discriminate.
  - inversion H; subst. left.
    pose proof (descend_reached_here _ _ _ _ _ Hd) as Hh. cbn in Hh. subst. exact Hd.
  - destruct (negb follow && is_nil rest0) eqn:E; [|discriminate].
    inversion H; subst. right. apply andb_true_iff in E as [_ E].
    destruct rest0; [|discriminate].
    apply descend_link_inv in Hd as (q & r & es & -> & Hh & Hq & Hn).
    cbn in Hh. subst. exists q, nm0, tg0. split; [reflexivity|].
    rewrite descend_app, Hq. cbn. rewrite Hn. reflexivity.
  - destruct (is_nil rest0); discriminate.
  - inversion H; subst. left.
    pose proof (descend_reached_here _ _ _ _ _ Hd) as Hh. cbn in Hh. subst. exact Hd.
  - destruct (negb follow && is_nil rest0) eqn:E.
    + inversion H; subst. right. apply andb_true_iff in E as [_ E].
      destruct rest0; [|discriminate].
      apply descend_link_inv in Hd as (q & r & es & -> & Hh & Hq & Hn).
      cbn in Hh. subst. exists q, nm0, tg0. split; [reflexivity|].
      rewrite descend_app, Hq. cbn. rewrite Hn. reflexivity.
    + eapply IH, H.
  - destruct (is_nil rest0); discriminate.
Qed.

Lemma descend_cons (r : bool) (es : list (string * node)) (h : Path) (a : string) (p : Path) :
  descend (Dir r es) h (a :: p) =
  match lookup_entry a es with
  | None => Missing h a p
  | Some (Symlink tgt) => Link h a tgt p
  | Some child => descend child (h ++ [a]) p
  end.
Proof. reflexivity. Qed.

(** A removed name is missing. *)
Lemma descend_removed (c : Path) :
  c <> [] ->
  forall t h,
    (exists n, descend t h c = Reached (h ++ c) n) \/
    (exists h' nm tgt, descend t h c = Link h' nm tgt []) ->
    exists h' nm, descend (tree_update c None t) h c = Missing h' nm [].
Proof.
  induction c as [|a c IH]; intros Hne t h H; [congruence|].
  destruct t as [i|r es|tg];
    try (cbn in H; destruct H as [(n & H)|(h' & nm & tgt & H)]; discriminate).
  destruct c as [|b c].
  - cbn. rewrite lookup_remove_same. eauto.
  - assert (tree_update (a :: b :: c) None (Dir r es)
            = Dir r (map_entry a (tree_update (b :: c) None) es)) as -> by reflexivity.
    rewrite descend_cons in H. rewrite descend_cons, lookup_map_same.
    destruct (lookup_entry a es) as [[i|r' es'|tg]|]; cbn [option_map].
    + cbn in H. destruct H as [(n & H)|(h' & nm & tgt & H)]; discriminate.
    + assert (is_symlink_node (tree_update (b :: c) None (Dir r' es')) = false) as Hs
          by (apply tree_update_not_symlink; reflexivity).
      assert (exists h' nm,
                 descend (tree_update (b :: c) None (Dir r' es')) (h ++ [a]) (b :: c)
                 = Missing h' nm []) as IH'.
      { apply IH; [discriminate|]. destruct H as [(n & H)|H]; [left|right; exact H].
        exists n. rewrite <- app_assoc. exact H. }
      destruct (tree_update (b :: c) None (Dir r' es'));
        [exact IH' | exact IH' | discriminate].
    + destruct H as [(n & H)|(h' & nm & tgt & H)]; discriminate.
    + destruct H as [(n & H)|(h' & nm & tgt & H)]; discriminate.
Qed.

(** [unlink] removes the name: the path it was given no longer leads
    anywhere. *)
Lemma fs_unlink_removes (f f1 : FS) (p : Path) :
  fs_unlink f p = (Ok tt, f1) ->
  forall c n, lstat f1 p <> Found c n.
Proof.
  unfold fs_unlink. destruct (lstat f p) as [canon n0|pa nm|er] eqn:Hl; [|discriminate..].
  intros H c n Hfound.
  assert (f1 = mkFS (tree_update canon None (tree f)) (inodes f) /\ canon <> [])
    as [-> Hne].
  { destruct canon, n0; try discriminate;
      inversion H; (split; [reflexivity|discriminate]). }
  unfold lstat, resolve in *. cbn [tree] in Hfound.
  destruct (resolve_remove _ _ _ _ _ _ _ Hfound) as (n1 & Hbefore).
  rewrite Hl in Hbefore. inversion Hbefore; subst c n1.
  assert (exists h' nm,
             descend (tree_update canon None (tree f)) [] canon = Missing h' nm [])
    as (h' & nm & Hmiss).
  { apply descend_removed; [exact Hne|].
    apply resolve_canonical in Hl. destruct Hl as [Hr|(h & nm & tgt & _ & Hk)]; eauto 6. }
  apply resolve_canonical in Hfound.
  destruct Hfound as [Hr|(h & nm0 & tgt & _ & Hk)]; congruence.
Qed.

(** ** The importer *)

Section Importer.

Variable link_refused : Path -> Path -> option errno.

(** A hard link that fails raises an [OSError] and leaves the file system as
    it was. *)
Lemma fs_link_raises (f f' : FS) (source target : Path) (e : exn) :
  fs_link link_refused f source target = (Raise e, f') ->
  f' = f /\ is_OSError e = true.
Proof.
  unfold fs_link, os_error.
  destruct (lstat f source) as [c n|pa nm|er].
  - destruct (lstat f target) as [c' n'|pa nm|er];
      [intros H; inversion H; auto| |intros H; inversion H; auto].
    destruct (link_refused source target); [intros H; inversion H; auto|].
    destruct n; intros H; inversion H; auto.
  - intros H; inversion H; auto.
  - intros H; inversion H; auto.
Qed.

Lemma import_file_unfold (target source : Path) (w : World) :
  import_file link_refused target source w =
  match delete_step (fs w) target with
  | (Raise e, f1) => (Raise e, with_fs w f1)
  | (Ok _, f1) =>
      match fs_link link_refused f1 source target with
      | (Ok _, f2) => (Ok tt, with_fs w f2)
      | (Raise e, f2) =>
          if is_FileExistsError e then
            (Ok tt, mkWorld f2 (log w ++ [already_exists target]) (calls w))
          else if is_OSError e then
            match fs_copy f2 source target with
            | (Ok _, f3) =>
                (Ok tt, mkWorld f3 (log w ++ [link_failed target source e]) (calls w))
            | (Raise e', f3) =>
                (Raise e', mkWorld f3 (log w ++ [link_failed target source e]) (calls w))
            end
          else (Raise e, with_fs w f2)
      end
  end.
Proof.
  unfold import_file, delete_step, bind at 1, path_exists.
  assert (forall w1 : World,
    try_except (hardlink_to link_refused target source)
      (fun e =>
         if is_FileExistsError e
         then Some (log_error (snd (already_exists target)))
         else if is_OSError e
              then Some (bind (log_error (snd (link_failed target source e)))
                              (fun _ => bind (shutil_copy source target)
                                             (fun _ => ret tt)))
              else None) w1 =
    match fs_link link_refused (fs w1) source target with
    | (Ok _, f2) => (Ok tt, with_fs w1 f2)
    | (Raise e, f2) =>
        if is_FileExistsError e then
          (Ok tt, mkWorld f2 (log w1 ++ [already_exists target]) (calls w1))
        else if is_OSError e then
          match fs_copy f2 source target with
          | (Ok _, f3) =>
              (Ok tt, mkWorld f3 (log w1 ++ [link_failed target source e]) (calls w1))
          | (Raise e', f3) =>
              (Raise e', mkWorld f3 (log w1 ++ [link_failed target source e]) (calls w1))
          end
        else (Raise e, with_fs w1 f2)
    end) as Hlink.
  { intros w1. unfold try_except, hardlink_to.
    destruct (fs_link link_refused (fs w1) source target) as [[[]|e] f2];
      [reflexivity|].
    destruct (is_FileExistsError e); [reflexivity|].
    destruct (is_OSError e); [|reflexivity].
    unfold bind, log_error, emit, shutil_copy, with_fs, ret. cbn [fs log calls snd].
    destruct (fs_copy f2 source target) as [[d|e'] f3]; reflexivity. }
  destruct (fs_exists (fs w) target).
  - unfold bind, unlink.
    destruct (fs_unlink (fs w) target) as [[[]|e] f1]; [|reflexivity].
    rewrite Hlink. reflexivity.
  - unfold bind, ret. rewrite Hlink. destruct w; reflexivity.
Qed.

(** C3. Let the delete step go through: the destination was absent, or it
    existed and was unlinked, and then the path no longer leads anywhere.
    The hard link is tried on the file system that step left. If it
    succeeds, that is all. If it raises [FileExistsError], the error is
    logged, [import_file] returns, and the file system is the one the delete
    step left: nothing is copied. If it raises any other [OSError], the
    error is logged and what follows is [shutil.copy] from the source to the
    destination: when the copy succeeds, the path it wrote reads byte for
    byte as the source did; when it raises, its exception is the result of
    [import_file]. *)
Theorem import_file_cases
  (target source : Path) (w : World) (f1 : FS)
  (Hdelete : delete_step (fs w) target = (Ok tt, f1)) :
  (fs_exists (fs w) target = true -> forall c n, lstat f1 target <> Found c n)
  /\
  match fs_link link_refused f1 source target with
  | (Ok _, f2) =>
      import_file link_refused target source w = (Ok tt, with_fs w f2)
  | (Raise e, _) =>
      if is_FileExistsError e then
        import_file link_refused target source w =
        (Ok tt, mkWorld f1 (log w ++ [already_exists target]) (calls w))
      else
        match fs_copy f1 source target with
        | (Ok d, f3) =>
            import_file link_refused target source w =
            (Ok tt, mkWorld f3 (log w ++ [link_failed target source e]) (calls w))
            /\ exists data, fs_read f1 source = Some data /\ fs_read f3 d = Some data
        | (Raise e', f3) =>
            import_file link_refused target source w =
            (Raise e', mkWorld f3 (log w ++ [link_failed target source e]) (calls w))
        end
  end.
Proof.
  split.
  - intros He. unfold delete_step in Hdelete. rewrite He in Hdelete.
    apply (fs_unlink_removes _ _ _ Hdelete).
  - rewrite import_file_unfold, Hdelete.
    destruct (fs_link link_refused f1 source target) as [[[]|e] f2] eqn:Hl;
      [reflexivity|].
    apply fs_link_raises in Hl as [-> Hos].
    destruct (is_FileExistsError e); [reflexivity|].
    rewrite Hos.
    destruct (fs_copy f1 source target) as [[d|e'] f3] eqn:Hc; [|reflexivity].
    split; [reflexivity|]. apply (fs_copy_bytes _ _ _ _ _ Hc).
Qed.

(** An exception of the delete step is the result of [import_file]. *)
Lemma import_file_delete_fails (target source : Path) (w : World) (e : exn) (f1 : FS) :
  delete_step (fs w) target = (Raise e, f1) ->
  import_file link_refused target source w = (Raise e, with_fs w f1).
Proof. intros H. rewrite import_file_unfold, H. reflexivity. Qed.


End Importer.

Lemma import_file_cases_example :
  (fs_exists (fs world0) (show ++ ["pack.zip"]) = true ->
   forall c n, lstat disk_without_pack (show ++ ["pack.zip"]) <> Found c n)
  /\
  import_file cross_device (show ++ ["pack.zip"]) (show ++ ["ep1.mkv"]) world0 =
  (Ok tt,
   mkWorld
     (mkFS (tree_update (show ++ ["pack.zip"]) (Some (File 6)) (tree disk_without_pack))
           ((6, [x00; x01]) :: inodes disk))
     [link_failed (show ++ ["pack.zip"]) (show ++ ["ep1.mkv"])
                  (os_error EXDEV (show ++ ["pack.zip"]))]
     [])
  /\
  exists data,
    fs_read disk_without_pack (show ++ ["ep1.mkv"]) = Some data /\
    fs_read (mkFS (tree_update (show ++ ["pack.zip"]) (Some (File 6))
                               (tree disk_without_pack))
                  ((6, [x00; x01]) :: inodes disk))
            (show ++ ["pack.zip"]) = Some data.
Proof.
  exact (import_file_cases cross_device (show ++ ["pack.zip"]) (show ++ ["ep1.mkv"])
                           world0 disk_without_pack eq_refl).
Defined.


(** The importer's examples of the specification: a fresh destination is a
    hard link to the source's inode; importing again replaces it; when the
    link is refused the destination is a copy, with the same bytes under an
    inode of its own, and the source is as it was. *)
Example import_into_fresh_destination :
  let w' := snd (import_file no_refusal ["library"; "ep1.mkv"] (show ++ ["ep1.mkv"]) world0) in
  lstat (fs w') ["library"; "ep1.mkv"] = Found ["library"; "ep1.mkv"] (File 1) /\
  fs_read (fs w') ["library"; "ep1.mkv"] = fs_read disk (show ++ ["ep1.mkv"]) /\
  log w' = [].
Proof. repeat split. Qed.

Example import_again :
  let w1 := snd (import_file no_refusal ["library"; "ep1.mkv"] (show ++ ["pack.zip"]) world0) in
  let w2 := snd (import_file no_refusal ["library"; "ep1.mkv"] (show ++ ["ep1.mkv"]) w1) in
  fs_read (fs w1) ["library"; "ep1.mkv"] = fs_read disk (show ++ ["pack.zip"]) /\
  fs_read (fs w2) ["library"; "ep1.mkv"] = fs_read disk (show ++ ["ep1.mkv"]) /\
  log w2 = [].
Proof. repeat split. Qed.

Example import_by_copy :
  let w' := snd (import_file cross_device ["library"; "ep1.mkv"] (show ++ ["ep1.mkv"]) world0) in
  lstat (fs w') ["library"; "ep1.mkv"] = Found ["library"; "ep1.mkv"] (File 6) /\
  fs_read (fs w') ["library"; "ep1.mkv"] = fs_read disk (show ++ ["ep1.mkv"]) /\
  lstat (fs w') (show ++ ["ep1.mkv"]) = lstat disk (show ++ ["ep1.mkv"]) /\
  fs_read (fs w') (show ++ ["ep1.mkv"]) = fs_read disk (show ++ ["ep1.mkv"]).
Proof. repeat split. Qed.

(** A source that is missing: the link fails, and so does the copy. *)
Example import_missing_source :
  fst (import_file no_refusal ["library"; "x.mkv"] (show ++ ["gone.mkv"]) world0)
  = Raise (os_error ENOENT (show ++ ["gone.mkv"])).
Proof. reflexivity. Qed.

(** ** The orchestrator *)

Section Orchestrator.

Variable guess_type : string -> option string * option string.
Variable extract_archive : string -> string -> FS -> Outcome unit * FS.
Variable torrent_directory : Path.

(** [import_torrent], its steps written out. *)
Lemma import_torrent_unfold (torrent : Torrent) (w : World) :
  import_torrent guess_type extract_archive torrent_directory torrent w =
  match scan_raises (fs w) (get_torrent_filepath torrent_directory torrent) with
  | Some e =>
      (Raise e,
       mkWorld (fs w)
               (log w ++ [(INFO, "Importing torrent " +++ torrent_str torrent)])
               (calls w))
  | None =>
      match extract_archives guess_type extract_archive
              (scan_files (fs w) (get_torrent_filepath torrent_directory torrent))
              (mkWorld (fs w)
                 (log w
                  ++ [(INFO, "Importing torrent " +++ torrent_str torrent)]
                  ++ scan_log (fs w) (get_torrent_filepath torrent_directory torrent)
                  ++ [(DEBUG, "Found "
                              +++ str_nat (List.length
                                    (scan_files (fs w)
                                       (get_torrent_filepath torrent_directory torrent)))
                              +++ " files downloaded by the torrent")])
                 (calls w)) with
      | (Raise e, w2) => (Raise e, w2)
      | (Ok _, w2) =>
          match scan_raises (fs w2) (get_torrent_filepath torrent_directory torrent) with
          | Some e => (Raise e, w2)
          | None =>
              let B := scan_files (fs w2) (get_torrent_filepath torrent_directory torrent) in
              (Ok (filter (is_video guess_type) B, filter (is_subtitle guess_type) B, B),
               mkWorld (fs w2)
                       (log w2
                        ++ scan_log (fs w2) (get_torrent_filepath torrent_directory torrent)
                        ++ flat_map (classify_note guess_type) B
                        ++ [(INFO, "Found " +++ str_nat (List.length B) +++ " files ("
                                   +++ str_nat (List.length (filter (is_video guess_type) B))
                                   +++ " video files, "
                                   +++ str_nat (List.length (filter (is_subtitle guess_type) B))
                                   +++ " subtitle files) for further processing.")])
                       (calls w2))
          end
      end
  end.
Proof.
  unfold import_torrent.
  unfold bind at 1. unfold log_info at 1, emit.
  destruct (scan_raises (fs w) (get_torrent_filepath torrent_directory torrent))
    as [e|] eqn:Hr.
  { apply bind_raise. rewrite list_files_recursively_eq. cbn [fs]. rewrite Hr.
    reflexivity. }
  erewrite bind_ok
    by (rewrite list_files_recursively_eq; cbn [fs]; rewrite Hr; reflexivity).
  unfold bind at 1. unfold log_debug at 1, emit. cbn [fs log calls].
  rewrite <- !app_assoc. unfold bind at 1.
  match goal with
  | |- context [extract_archives _ _ _ ?w1] =>
      destruct (extract_archives guess_type extract_archive
                  (scan_files (fs w) (get_torrent_filepath torrent_directory torrent)) w1)
        as [[[]|e] w2]
  end; [|reflexivity].
  destruct (scan_raises (fs w2) (get_torrent_filepath torrent_directory torrent))
    as [e|] eqn:Hr2.
  { apply bind_raise. rewrite list_files_recursively_eq, Hr2. reflexivity. }
  erewrite bind_ok by (rewrite list_files_recursively_eq, Hr2; reflexivity).
  erewrite bind_ok by apply classify_follows_the_rule_eq.
  unfold bind, log_info, emit, ret. cbn [fs log calls].
  rewrite <- !app_assoc. reflexivity.
Qed.

(** C4. [import_torrent] resolves the directory [d] of the torrent and
    scans it; if that scan raises, that is the result and nothing else is
    done. Otherwise the scan gives the list [A], and the expander is run
    once, over [A]. If the expander raises, that is the result. Otherwise
    [d] is scanned again, on the file system the expander left; if this
    scan raises, that is the result. Otherwise it gives the list [B]; [B]
    is classified and the result is (videos of [B], subtitles of [B], [B]).
    The extractor has then been called once for each archive of [A], in
    order, and for nothing else: not for an archive that is in [B] only. *)
Theorem import_torrent_sequence (torrent : Torrent) (w : World) :
  let d := get_torrent_filepath torrent_directory torrent in
  let A := scan_files (fs w) d in
  let w1 :=
    mkWorld (fs w)
            (log w
             ++ [(INFO, "Importing torrent " +++ torrent_str torrent)]
             ++ scan_log (fs w) d
             ++ [(DEBUG, "Found " +++ str_nat (List.length A)
                         +++ " files downloaded by the torrent")])
            (calls w) in
  match scan_raises (fs w) d with
  | Some e =>
      import_torrent guess_type extract_archive torrent_directory torrent w
      = (Raise e,
         mkWorld (fs w)
                 (log w ++ [(INFO, "Importing torrent " +++ torrent_str torrent)])
                 (calls w))
  | None =>
      match extract_archives guess_type extract_archive A w1 with
      | (Raise e, w2) =>
          import_torrent guess_type extract_archive torrent_directory torrent w
          = (Raise e, w2)
      | (Ok _, w2) =>
          let B := scan_files (fs w2) d in
          match scan_raises (fs w2) d with
          | Some e =>
              import_torrent guess_type extract_archive torrent_directory torrent w
              = (Raise e, w2)
          | None =>
              import_torrent guess_type extract_archive torrent_directory torrent w
              = (Ok (filter (is_video guess_type) B, filter (is_subtitle guess_type) B, B),
                 mkWorld (fs w2)
                         (log w2
                          ++ scan_log (fs w2) d
                          ++ flat_map (classify_note guess_type) B
                          ++ [(INFO, "Found " +++ str_nat (List.length B) +++ " files ("
                                     +++ str_nat (List.length (filter (is_video guess_type) B))
                                     +++ " video files, "
                                     +++ str_nat (List.length (filter (is_subtitle guess_type) B))
                                     +++ " subtitle files) for further processing.")])
                         (calls w2))
          end
          /\ calls w2 = calls w ++ map call_of (filter (is_archive guess_type) A)
      end
  end.
Proof.
  intros d A w1. rewrite import_torrent_unfold. fold d. fold A. fold w1.
  destruct (scan_raises (fs w) d) as [e|]; [reflexivity|].
  destruct (extract_archives guess_type extract_archive A w1) as [[[]|e] w2] eqn:Hx;
    [|reflexivity].
  intros B. split.
  - destruct (scan_raises (fs w2) d) as [e|]; reflexivity.
  - apply extract_archives_calls in Hx. exact Hx.
Qed.

(** C8. The classifier is the loop that ends [import_torrent], and its
    input is the list the second scan has just returned. Whenever
    [import_torrent] returns the videos [v], the subtitles [s] and the
    files [B]: [v] and [s] are what the loop makes of the input [B], which
    holds no path twice; each of them is drawn from [B]; neither holds a
    path twice; and no path is in both. No directory under the directory
    of the torrent holds a name twice, as on any file system. *)
Theorem classifier_outputs_are_sets
  (torrent : Torrent) (w w' : World) (v s B : list Path)
  (Hdone : import_torrent guess_type extract_archive torrent_directory torrent w
           = (Ok (v, s, B), w'))
  (Hunique : forall c T,
      stat (fs w') (get_torrent_filepath torrent_directory torrent) = Found c T ->
      names_unique T = true) :
  (forall w0, fst (classify guess_type B w0) = Ok (v, s)) /\
  NoDup B /\
  incl v B /\ incl s B /\
  NoDup v /\ NoDup s /\
  (forall x, In x v -> ~ In x s).
Proof.
  rewrite import_torrent_unfold in Hdone.
  destruct (scan_raises (fs w) (get_torrent_filepath torrent_directory torrent));
    [discriminate Hdone|].
  match type of Hdone with
  | context [extract_archives _ _ ?A ?w1] =>
      destruct (extract_archives guess_type extract_archive A w1) as [[[]|e] w2]
  end; [|discriminate Hdone].
  destruct (scan_raises (fs w2) (get_torrent_filepath torrent_directory torrent));
    [discriminate Hdone|].
  cbn zeta in Hdone. inversion Hdone; subst. cbn [fs] in Hunique.
  pose proof (scan_files_NoDup _ _ Hunique) as HB.
  split; [intros w0; rewrite classify_follows_the_rule_eq; reflexivity|].
  split; [exact HB|].
  split; [apply incl_filter|]. split; [apply incl_filter|].
  split; [apply NoDup_filter; exact HB|]. split; [apply NoDup_filter; exact HB|].
  intros x Hv Hs. apply filter_In in Hv as [_ Hv], Hs as [_ Hs].
  rewrite (video_not_subtitle _ _ Hv) in Hs. discriminate Hs.
Qed.

End Orchestrator.

(** One pass only: the extractor unpacks a second archive next to the first,
    the second scan finds it, and it is returned among all the files without
    ever having been given to the extractor. *)
Example nested_archive_is_not_expanded :
  let r := import_torrent (table_guess_type posix_types) patool_unpacks ["downloads"]
                          show_torrent world0 in
  fst r = Ok ([show ++ ["ep1.mkv"]; show ++ ["movie.mp4"]],
              [show ++ ["subs"; "ep1.srt"]],
              [show ++ ["ep1.mkv"]; show ++ ["pack.zip"]; show ++ ["movie.mp4"];
               show ++ ["inner.zip"]; show ++ ["subs"; "ep1.srt"];
               show ++ ["subs"; "notes.txt"]]) /\
  is_archive (table_guess_type posix_types) (show ++ ["inner.zip"]) = true /\
  calls (snd r) = [("/downloads/Show/pack.zip", "/downloads/Show")].
Proof. repeat split. Qed.

Lemma classifier_outputs_are_sets_example :
  (forall w0,
      fst (classify (table_guess_type posix_types)
             [show ++ ["ep1.mkv"]; show ++ ["pack.zip"]; show ++ ["movie.mp4"];
              show ++ ["inner.zip"]; show ++ ["subs"; "ep1.srt"];
              show ++ ["subs"; "notes.txt"]] w0)
      = Ok ([show ++ ["ep1.mkv"]; show ++ ["movie.mp4"]],
            [show ++ ["subs"; "ep1.srt"]])) /\
  NoDup [show ++ ["ep1.mkv"]; show ++ ["pack.zip"]; show ++ ["movie.mp4"];
         show ++ ["inner.zip"]; show ++ ["subs"; "ep1.srt"];
         show ++ ["subs"; "notes.txt"]] /\
  incl [show ++ ["ep1.mkv"]; show ++ ["movie.mp4"]]
       [show ++ ["ep1.mkv"]; show ++ ["pack.zip"]; show ++ ["movie.mp4"];
        show ++ ["inner.zip"]; show ++ ["subs"; "ep1.srt"];
        show ++ ["subs"; "notes.txt"]] /\
  incl [show ++ ["subs"; "ep1.srt"]]
       [show ++ ["ep1.mkv"]; show ++ ["pack.zip"]; show ++ ["movie.mp4"];
        show ++ ["inner.zip"]; show ++ ["subs"; "ep1.srt"];
        show ++ ["subs"; "notes.txt"]] /\
  NoDup [show ++ ["ep1.mkv"]; show ++ ["movie.mp4"]] /\
  NoDup [show ++ ["subs"; "ep1.srt"]] /\
  (forall x, In x [show ++ ["ep1.mkv"]; show ++ ["movie.mp4"]] ->
             ~ In x [show ++ ["subs"; "ep1.srt"]]).
Proof.
  apply (classifier_outputs_are_sets
           (table_guess_type posix_types) patool_unpacks ["downloads"] show_torrent
           world0
           (snd (import_torrent (table_guess_type posix_types) patool_unpacks
                                ["downloads"] show_torrent world0))
           [show ++ ["ep1.mkv"]; show ++ ["movie.mp4"]]
           [show ++ ["subs"; "ep1.srt"]]
           [show ++ ["ep1.mkv"]; show ++ ["pack.zip"]; show ++ ["movie.mp4"];
            show ++ ["inner.zip"]; show ++ ["subs"; "ep1.srt"];
            show ++ ["subs"; "notes.txt"]]).
  - vm_compute. reflexivity.
  - intros c T H. vm_compute in H. inversion H. reflexivity.
Defined.

(** * Further properties *)

(** ** The scan, beyond the claims *)

Lemma scan_log_debug (f : FS) (root : Path) :
  Forall (fun r => fst r = DEBUG) (scan_log f root).
Proof.
  unfold scan_log. apply Forall_app. split; [repeat constructor|].
  apply Forall_app. split; [|repeat constructor].
  apply Forall_flat_map. apply Forall_forall. intros x _. unfold scan_note.
  destruct (fs_is_dir f x); [repeat constructor|].
  destruct (fs_is_symlink f x); repeat constructor.
Qed.

(** X1. The scan only reads. Whether it returns or raises, the file
    system and the record of extractor calls are the ones it found, and all
    it has added to the log is at level DEBUG. When it returns, a second
    scan on the world it left returns the same list. *)
Theorem scan_only_reads (root : Path) (w : World) :
  exists notes,
    snd (list_files_recursively root w)
    = mkWorld (fs w) (log w ++ notes) (calls w) /\
    Forall (fun r => fst r = DEBUG) notes /\
    forall files,
      fst (list_files_recursively root w) = Ok files ->
      fst (list_files_recursively root (snd (list_files_recursively root w)))
      = Ok files.
Proof.
  rewrite list_files_recursively_eq.
  destruct (scan_raises (fs w) root) as [e|] eqn:Hr.
  - exists []. cbn [fst snd]. rewrite world_log_nil.
    split; [reflexivity|]. split; [constructor|].
    intros files H. discriminate H.
  - exists (scan_log (fs w) root). cbn [fst snd].
    split; [reflexivity|]. split; [apply scan_log_debug|].
    intros files H. inversion H; subst.
    rewrite list_files_recursively_eq. cbn [fs]. rewrite Hr. reflexivity.
Qed.

Lemma scan_files_below (f : FS) (root p : Path) :
  In p (scan_files f root) ->
  (exists rel, rel <> [] /\ p = root ++ rel) /\
  fs_is_dir f p = false /\ fs_is_symlink f p = false.
Proof.
  unfold scan_files, fs_glob. rewrite filter_In. intros [Hin Hk].
  split.
  - destruct (stat f root) as [c T| |]; try contradiction.
    apply glob_rec_reachable in Hin as (rel & x & Hr & ->).
    exists rel. split; [apply (reachable_nonempty _ _ _ Hr) | reflexivity].
  - unfold kept in Hk. apply andb_true_iff in Hk as [Hd Hs].
    apply negb_true_iff in Hd, Hs. auto.
Qed.

(** X2. Whatever the tree looks like, every path the scan returns lies
    strictly below the root it was given, so the root itself is never
    returned, and for each of them [is_dir] and [is_symlink] both answer
    no. *)
Theorem scan_paths_are_below_the_root
  (root : Path) (w w' : World) (files : list Path) (p : Path)
  (Hscan : list_files_recursively root w = (Ok files, w'))
  (Hin : In p files) :
  (exists rel, rel <> [] /\ p = root ++ rel) /\
  fs_is_dir (fs w) p = false /\ fs_is_symlink (fs w) p = false.
Proof.
  rewrite list_files_recursively_eq in Hscan.
  destruct (scan_raises (fs w) root); [discriminate Hscan|].
  inversion Hscan; subst. apply scan_files_below. exact Hin.
Qed.

(** X3. Where no directory under the root holds a name twice, the scan
    returns no path twice. *)
Theorem scan_has_no_duplicates
  (root c : Path) (T : node) (w w' : World) (files : list Path)
  (Hroot : stat (fs w) root = Found c T)
  (Hunique : names_unique T = true)
  (Hscan : list_files_recursively root w = (Ok files, w')) :
  NoDup files.
Proof.
  rewrite (list_files_recursively_found _ _ _ _ Hroot) in Hscan.
  inversion Hscan; subst.
  apply scan_files_NoDup. intros c' T' H. rewrite Hroot in H. inversion H; subst.
  exact Hunique.
Qed.

Lemma scanned_file_lookup (f : FS) (root c : Path) (T : node) (p : Path) :
  stat f root = Found c T -> names_unique T = true ->
  In p (scan_files f root) ->
  exists i cp, lstat f p = Found cp (File i) /\ stat f p = Found cp (File i).
Proof.
  intros Hroot Hu Hin. unfold scan_files, fs_glob in Hin. rewrite Hroot in Hin.
  apply filter_In in Hin as [Hin Hk].
  apply glob_rec_reachable in Hin as (rel & x & Hr & ->).
  rewrite (kept_reachable _ _ _ _ _ _ Hroot Hu Hr) in Hk.
  pose proof (reachable_nonempty _ _ _ Hr) as Hne.
  pose proof (reachable_descend _ _ _ Hr Hu c) as Hd.
  destruct (resolve_below _ _ _ _ _ Hroot _ Hne) as [Ha _].
  destruct x as [i|r es|tgt]; try discriminate.
  exists i, (c ++ rel). unfold lstat, stat, resolve. split; apply Ha; exact Hd.
Qed.

(** X4. Where no directory under the root holds a name twice, every path
    the scan returns names an entry of the file system that was scanned,
    the same one whether links are followed or not, and that entry is
    neither a directory nor a symbolic link. So the [stat] the expander
    asks of it succeeds on the world the scan left. *)
Theorem scanned_files_can_be_stat
  (root c : Path) (T : node) (w w' : World) (files : list Path) (p : Path)
  (Hroot : stat (fs w) root = Found c T)
  (Hunique : names_unique T = true)
  (Hscan : list_files_recursively root w = (Ok files, w'))
  (Hin : In p files) :
  exists cp x size,
    lstat (fs w) p = Found cp x /\
    stat (fs w) p = Found cp x /\
    is_dir_node x = false /\ is_symlink_node x = false /\
    fst (stat_size p w') = Ok size.
Proof.
  rewrite (list_files_recursively_found _ _ _ _ Hroot) in Hscan.
  inversion Hscan; subst.
  destruct (scanned_file_lookup _ _ _ _ _ Hroot Hunique Hin) as (i & cp & Hl & Hs).
  exists cp, (File i), (List.length (read_inode (inodes (fs w)) i)).
  unfold stat_size, fs_stat_size. cbn [fst fs]. rewrite Hs. auto.
Qed.

Lemma scan_paths_are_below_the_root_example :
  (exists rel, rel <> [] /\ show ++ ["subs"; "ep1.srt"] = show ++ rel) /\
  fs_is_dir (fs world0) (show ++ ["subs"; "ep1.srt"]) = false /\
  fs_is_symlink (fs world0) (show ++ ["subs"; "ep1.srt"]) = false.
Proof.
  apply (scan_paths_are_below_the_root
           show world0 (snd (list_files_recursively show world0))
           [show ++ ["ep1.mkv"]; show ++ ["pack.zip"];
            show ++ ["subs"; "ep1.srt"]; show ++ ["subs"; "notes.txt"]]
           (show ++ ["subs"; "ep1.srt"])).
  - reflexivity.
  - simpl. auto.
Defined.

Lemma scan_has_no_duplicates_example :
  NoDup [show ++ ["ep1.mkv"]; show ++ ["pack.zip"];
         show ++ ["subs"; "ep1.srt"]; show ++ ["subs"; "notes.txt"]].
Proof.
  apply (scan_has_no_duplicates
           show show show_dir world0 (snd (list_files_recursively show world0)));
    reflexivity.
Defined.

Lemma scanned_files_can_be_stat_example :
  exists cp x size,
    lstat (fs world0) (show ++ ["subs"; "ep1.srt"]) = Found cp x /\
    stat (fs world0) (show ++ ["subs"; "ep1.srt"]) = Found cp x /\
    is_dir_node x = false /\ is_symlink_node x = false /\
    fst (stat_size (show ++ ["subs"; "ep1.srt"])
                   (snd (list_files_recursively show world0))) = Ok size.
Proof.
  apply (scanned_files_can_be_stat
           show show show_dir world0 (snd (list_files_recursively show world0))
           [show ++ ["ep1.mkv"]; show ++ ["pack.zip"];
            show ++ ["subs"; "ep1.srt"]; show ++ ["subs"; "notes.txt"]]
           (show ++ ["subs"; "ep1.srt"])).
  - reflexivity.
  - reflexivity.
  - reflexivity.
  - simpl. auto.
Defined.

(** ** The expander, beyond the claims *)

Section ExpanderMore.

Variable guess_type : string -> option string * option string.
Variable extract_archive : string -> string -> FS -> Outcome unit * FS.

(** What one turn of the loop does to the call record and the file system. *)
Lemma extract_one_trace (file : Path) (w : World) :
  match extract_one guess_type extract_archive file w with
  | (Ok _, w') =>
      calls w' = calls w ++ map call_of (filter (is_archive guess_type) [file]) /\
      fs w' = fold_left (extractor_fs extract_archive)
                        (filter (is_archive guess_type) [file]) (fs w)
  | (Raise _, w') =>
      calls w' = calls w \/
      (is_archive guess_type file = true /\ calls w' = calls w ++ [call_of file])
  end.
Proof.
  destruct (fs_stat_size (fs w) file) as [size|e] eqn:Hs.
  2:{ rewrite (extract_one_stat_fails _ _ _ _ _ Hs). left. reflexivity. }
  cbn [filter]. destruct (is_archive guess_type file) eqn:Ha.
  - destruct (extract_archive (path_str file) (path_str (path_parent file)) (fs w))
      as [r f'] eqn:Hx.
    rewrite (extract_one_archive _ _ _ _ _ _ _ Hs Ha Hx).
    unfold extractor_fs. cbn [fold_left map]. rewrite Hx.
    destruct r as [[]|e]; [split; reflexivity|].
    destruct (is_PatoolError e); [split; reflexivity | right; split; reflexivity].
  - rewrite (extract_one_not_archive _ _ _ _ _ Hs Ha). cbn.
    rewrite app_nil_r. split; reflexivity.
Qed.

(** X5. Whatever the outcome of a batch, the extractor has been called on
    files of the batch whose sniffed type is in the set and on nothing
    else, once each, in the order of the batch, each time with the file's
    parent as output directory: the calls made are a prefix of the calls for
    the archives of the batch, and all of them when the batch returns. *)
Theorem extractor_is_called_on_archives_only (files : list Path) (w : World) :
  exists done rest,
    filter (is_archive guess_type) files = done ++ rest /\
    calls (snd (extract_archives guess_type extract_archive files w))
    = calls w ++ map call_of done /\
    (forall u, fst (extract_archives guess_type extract_archive files w) = Ok u ->
               rest = []).
Proof.
  revert w. induction files as [|file files IH]; intros w.
  - exists [], []. cbn. rewrite app_nil_r. auto.
  - unfold extract_archives. rewrite for_each_cons.
    fold (extract_archives guess_type extract_archive files).
    pose proof (extract_one_trace file w) as Ht.
    destruct (extract_one guess_type extract_archive file w) as [[[]|e] w1].
    + destruct Ht as [Hc _]. destruct (IH w1) as (done & rest & Hf & Hcalls & Hok).
      exists (filter (is_archive guess_type) [file] ++ done), rest.
      split; [|split].
      * rewrite <- app_assoc, <- Hf. cbn [filter].
        destruct (is_archive guess_type file); reflexivity.
      * rewrite Hcalls, Hc, map_app, app_assoc. reflexivity.
      * exact Hok.
    + cbn [fst snd]. destruct Ht as [Hc|[Ha Hc]].
      * exists [], (filter (is_archive guess_type) (file :: files)).
        rewrite Hc. cbn [map app]. rewrite app_nil_r.
        split; [reflexivity|]. split; [reflexivity|]. discriminate.
      * exists [file], (filter (is_archive guess_type) files).
        cbn [filter]. rewrite Ha, Hc. cbn.
        split; [reflexivity|]. split; [reflexivity|]. discriminate.
Qed.

(** X6. When a batch returns, the file system it leaves is the one the
    extractor calls leave, made one after the other on the archives of the
    batch in their order; the other files of the batch change nothing. *)
Theorem completed_batch_file_system
  (files : list Path) (w w' : World)
  (Hdone : extract_archives guess_type extract_archive files w = (Ok tt, w')) :
  fs w' = fold_left (extractor_fs extract_archive)
                    (filter (is_archive guess_type) files) (fs w).
Proof.
  revert w Hdone. induction files as [|file files IH]; intros w Hdone.
  - cbn in Hdone. inversion Hdone. reflexivity.
  - unfold extract_archives in Hdone. rewrite for_each_cons in Hdone.
    fold (extract_archives guess_type extract_archive files) in Hdone.
    pose proof (extract_one_trace file w) as Ht.
    destruct (extract_one guess_type extract_archive file w) as [[[]|e] w1];
      [|discriminate].
    destruct Ht as [_ Hf]. rewrite (IH _ Hdone), Hf. cbn [filter].
    destruct (is_archive guess_type file); reflexivity.
Qed.

(** X7. A batch in which no file is sniffed as an archive, and whose files
    can all be stat'ed, is only looked at: the batch returns, the extractor
    is not called, the file system is untouched, and the log has one DEBUG
    record more for each file. *)
Theorem batch_without_archives_changes_nothing
  (files : list Path) (w : World)
  (Hplain : forall file, In file files -> is_archive guess_type file = false)
  (Hstat : forall file, In file files -> exists size, fs_stat_size (fs w) file = Ok size) :
  exists notes,
    extract_archives guess_type extract_archive files w
    = (Ok tt, mkWorld (fs w) (log w ++ notes) (calls w)) /\
    List.length notes = List.length files /\
    Forall (fun r => fst r = DEBUG) notes.
Proof.
  revert w Hstat. induction files as [|file files IH]; intros w Hstat.
  - exists []. cbn. rewrite app_nil_r. destruct w; auto.
  - destruct (Hstat file (or_introl eq_refl)) as (size & Hs).
    pose proof (Hplain file (or_introl eq_refl)) as Ha.
    unfold extract_archives. rewrite for_each_cons.
    fold (extract_archives guess_type extract_archive files).
    rewrite (extract_one_not_archive _ _ _ _ _ Hs Ha).
    match goal with
    | |- context [extract_archives _ _ files ?w1] =>
        destruct (IH (fun x Hx => Hplain x (or_intror Hx)) w1
                     (fun x Hx => Hstat x (or_intror Hx))) as (notes & He & Hl & Hd)
    end.
    rewrite He. cbn [fs log calls].
    eexists (_ :: notes). rewrite <- app_assoc. cbn [app].
    split; [reflexivity|]. split; [cbn; congruence|].
    constructor; [reflexivity | exact Hd].
Qed.

End ExpanderMore.

Lemma completed_batch_file_system_example :
  fs (snd (extract_archives (table_guess_type posix_types) patool_unpacks
             [show ++ ["ep1.mkv"]; show ++ ["pack.zip"]] world0))
  = fold_left (extractor_fs patool_unpacks)
              (filter (is_archive (table_guess_type posix_types))
                      [show ++ ["ep1.mkv"]; show ++ ["pack.zip"]])
              (fs world0).
Proof.
  apply (completed_batch_file_system (table_guess_type posix_types) patool_unpacks
           [show ++ ["ep1.mkv"]; show ++ ["pack.zip"]] world0).
  reflexivity.
Defined.

Lemma batch_without_archives_changes_nothing_example :
  exists notes,
    extract_archives (table_guess_type posix_types) patool_crashes
                     [show ++ ["ep1.mkv"]; show ++ ["subs"; "ep1.srt"]] world0
    = (Ok tt, mkWorld (fs world0) (log world0 ++ notes) (calls world0)) /\
    List.length notes = 2 /\
    Forall (fun r => fst r = DEBUG) notes.
Proof.
  apply (batch_without_archives_changes_nothing
           (table_guess_type posix_types) patool_crashes
           [show ++ ["ep1.mkv"]; show ++ ["subs"; "ep1.srt"]] world0).
  - intros file [<-|[<-|[]]]; reflexivity.
  - intros file [<-|[<-|[]]]; eexists; reflexivity.
Defined.

(** ** More on lookups *)

(** Where [lstat] finds no symbolic link, [stat] answers the same. *)
Lemma resolve_lstat_stat (fuel : nat) (t : node) :
  forall p,
    match resolve_fuel fuel t false p with
    | Found _ (Symlink _) => True
    | r => resolve_fuel fuel t true p = r
    end.
Proof.
  induction fuel as [|fuel IH]; intros p; cbn [resolve_fuel];
    destruct (descend t [] p) as [h n|h nm tgt rest|h nm rest|]; cbn [negb andb].
  - destruct n; reflexivity || exact I.
  - destruct rest; cbn; [exact I | reflexivity].
  - destruct (is_nil rest); reflexivity.
  - reflexivity.
  - destruct n; reflexivity || exact I.
  - destruct rest; cbn [is_nil]; [exact I | apply IH].
  - destruct (is_nil rest); reflexivity.
  - reflexivity.
Qed.

(** The errnos a lookup fails with. *)
Lemma resolve_errno (fuel : nat) (t : node) (follow : bool) :
  forall p e, resolve_fuel fuel t follow p = Failed e ->
              e = ELOOP \/ e = ENOENT \/ e = ENOTDIR.
Proof.
  induction fuel as [|fuel IH]; intros p e H; cbn [resolve_fuel] in H;
    destruct (descend t [] p) as [h n|h nm tgt rest|h nm rest|].
  - discriminate.
  - destruct (negb follow && is_nil rest); [discriminate|]. inversion H; auto.
  - destruct (is_nil rest); [discriminate|]. inversion H; auto.
  - inversion H; auto.
  - discriminate.
  - destruct (negb follow && is_nil rest); [discriminate|]. apply (IH _ _ H).
  - destruct (is_nil rest); [discriminate|]. inversion H; auto.
  - inversion H; auto.
Qed.

(** Creating a name that was missing leaves every regular file where it
    was. *)
Lemma descend_insert_keeps (x : node) (p : Path) :
  forall t h u h2 hm nmm here i,
    descend t h2 u = Missing hm nmm [] ->
    descend t h p = Reached here (File i) ->
    descend (tree_update u (Some x) t) h p = Reached here (File i).
Proof.
  induction p as [|a p IH]; intros t h u h2 hm nmm here i Hu Hp.
  - cbn in Hp. inversion Hp; subst. destruct u as [|b u]; reflexivity.
  - cbn in Hp. destruct t as [j|r es|tg]; try discriminate.
    destruct u as [|b u]; [discriminate|]. cbn in Hu.
    destruct (lookup_entry a es) as [c|] eqn:Ha; [|discriminate].
    destruct u as [|b' u].
    + assert (lookup_entry b es = None) as Hb.
      { destruct (lookup_entry b es) as [[j|r' es'|tg]|]; [discriminate..| reflexivity]. }
      assert (a <> b) as Hab by congruence.
      cbn. rewrite (lookup_put_other _ _ _ _ Hab), Ha. exact Hp.
    + assert (tree_update (b :: b' :: u) (Some x) (Dir r es)
              = Dir r (map_entry b (tree_update (b' :: u) (Some x)) es)) as -> by reflexivity.
      cbn [descend].
      destruct (String.eqb_spec a b) as [->|Hab].
      * rewrite lookup_map_same, Ha. cbn [option_map]. rewrite Ha in Hu.
        destruct c as [j|r' es'|tg].
        -- cbn in Hu. discriminate.
        -- assert (is_symlink_node (tree_update (b' :: u) (Some x) (Dir r' es')) = false)
             as Hs by (apply tree_update_not_symlink; reflexivity).
           specialize (IH _ (h ++ [b]) _ _ _ _ _ _ Hu Hp).
           destruct (tree_update (b' :: u) (Some x) (Dir r' es'));
             [exact IH | exact IH | discriminate].
        -- discriminate.
      * rewrite (lookup_map_other _ _ _ _ Hab), Ha. exact Hp.
Qed.

Lemma resolve_insert_keeps (x : node) (u hm : Path) (nmm : string)
      (fuel : nat) (t : node) (follow : bool) :
  descend t [] u = Missing hm nmm [] ->
  forall p c i,
    resolve_fuel fuel t follow p = Found c (File i) ->
    resolve_fuel fuel (tree_update u (Some x) t) follow p = Found c (File i).
Proof.
  intros Hu. induction fuel as [|fuel IH]; intros p c i H; cbn [resolve_fuel] in *;
    destruct (descend t [] p) as [h n|h nm tgt rest|h nm rest|] eqn:Hd.
  - inversion H; subst. rewrite (descend_insert_keeps x _ _ _ _ _ _ _ _ _ Hu Hd).
    reflexivity.
  - destruct (negb follow && is_nil rest); discriminate.
  - destruct (is_nil rest); discriminate.
  - discriminate.
  - inversion H; subst. rewrite (descend_insert_keeps x _ _ _ _ _ _ _ _ _ Hu Hd).
    reflexivity.
  - rewrite (descend_insert_link x _ _ _ _ _ _ _ _ _ _ _ Hu Hd).
    destruct (negb follow && is_nil rest); [discriminate|]. apply IH, H.
  - destruct (is_nil rest); discriminate.
  - discriminate.
Qed.

(** Removing a regular file leaves alone every walk that does not end on
    it. *)
Lemma descend_remove_file (p : Path) :
  forall t h u h2 hu j,
    descend t h2 u = Reached hu (File j) ->
    match descend t h p with
    | Reached here (File i) =>
        p <> u -> descend (tree_update u None t) h p = Reached here (File i)
    | Link here nm tgt rest =>
        descend (tree_update u None t) h p = Link here nm tgt rest
    | _ => True
    end.
Proof.
  induction p as [|a p IH]; intros t h u h2 hu j Hu.
  - cbn. destruct t as [i|r es|tg]; try exact I.
    intros _. destruct u as [|b u]; reflexivity.
  - destruct t as [i|r es|tg]; try exact I.
    destruct u as [|b u]; [discriminate|].
    rewrite descend_cons in Hu. rewrite descend_cons.
    destruct u as [|b' u].
    + (* the file is an entry of this directory *)
      assert (lookup_entry b es = Some (File j)) as Hb.
      { destruct (lookup_entry b es) as [[i|r' es'|tg]|]; cbn in Hu;
          try discriminate. inversion Hu. reflexivity. }
      assert (tree_update [b] None (Dir r es) = Dir r (remove_entry b es)) as ->
          by reflexivity.
      rewrite descend_cons.
      destruct (String.eqb_spec a b) as [->|Hab].
      * rewrite Hb. destruct p; cbn; [|exact I]. intros H. congruence.
      * rewrite (lookup_remove_other _ _ _ Hab).
        destruct (lookup_entry a es) as [[i|r' es'|tg]|]; try exact I.
        -- destruct (descend (File i) (h ++ [a]) p) as [? [?|? ?|?]| | |]; auto.
        -- destruct (descend (Dir r' es') (h ++ [a]) p) as [? [?|? ?|?]| | |]; auto.
        -- reflexivity.
    + assert (tree_update (b :: b' :: u) None (Dir r es)
              = Dir r (map_entry b (tree_update (b' :: u) None) es)) as -> by reflexivity.
      rewrite descend_cons.
      destruct (String.eqb_spec a b) as [->|Hab].
      * rewrite lookup_map_same.
        destruct (lookup_entry b es) as [[i|r' es'|tg]|]; cbn [option_map];
          try discriminate.
        specialize (IH (Dir r' es') (h ++ [b]) _ _ _ _ Hu).
        assert (is_symlink_node (tree_update (b' :: u) None (Dir r' es')) = false)
          as Hs by (apply tree_update_not_symlink; reflexivity).
        destruct (descend (Dir r' es') (h ++ [b]) p) as [here [i|? ?|?]| | |];
          try exact I.
        -- intros Hne.
           destruct (tree_update (b' :: u) None (Dir r' es'));
             [apply IH; congruence | apply IH; congruence | discriminate].
        -- destruct (tree_update (b' :: u) None (Dir r' es'));
             [exact IH | exact IH | discriminate].
      * rewrite (lookup_map_other _ _ _ _ Hab).
        destruct (lookup_entry a es) as [[i|r' es'|tg]|]; try exact I.
        -- destruct (descend (File i) (h ++ [a]) p) as [? [?|? ?|?]| | |]; auto.
        -- destruct (descend (Dir r' es') (h ++ [a]) p) as [? [?|? ?|?]| | |]; auto.
        -- reflexivity.
Qed.

(** The walk to a removed regular file now misses its last name. *)
Lemma descend_removed_file (c : Path) :
  c <> [] ->
  forall t h hu j,
    descend t h c = Reached hu (File j) ->
    descend (tree_update c None t) h c
    = Missing (h ++ removelast c) (last c "") [].
Proof.
  induction c as [|a c IH]; intros Hne t h hu j H; [congruence|].
  destruct t as [i|r es|tg]; try discriminate.
  rewrite descend_cons in H.
  destruct c as [|b c].
  - cbn. rewrite lookup_remove_same, app_nil_r. reflexivity.
  - assert (tree_update (a :: b :: c) None (Dir r es)
            = Dir r (map_entry a (tree_update (b :: c) None) es)) as -> by reflexivity.
    rewrite descend_cons, lookup_map_same.
    destruct (lookup_entry a es) as [[i|r' es'|tg]|]; cbn [option_map];
      try discriminate.
    assert (is_symlink_node (tree_update (b :: c) None (Dir r' es')) = false) as Hs
        by (apply tree_update_not_symlink; reflexivity).
    assert (b :: c <> []) as Hne' by discriminate.
    specialize (IH Hne' _ _ _ _ H).
    assert (h ++ removelast (a :: b :: c) = (h ++ [a]) ++ removelast (b :: c)) as ->
        by (rewrite <- app_assoc; reflexivity).
    assert (last (a :: b :: c) "" = last (b :: c) "") as -> by reflexivity.
    destruct (tree_update (b :: c) None (Dir r' es'));
      [exact IH | exact IH | discriminate].
Qed.

(** Once a regular file is removed, the path that led to it has a free last
    name, and every path that led to another regular file still does. *)
Lemma resolve_removed_file (c : Path) (j : nat) (fuel : nat) (t : node) (follow : bool) :
  c <> [] ->
  descend t [] c = Reached c (File j) ->
  forall p,
    match resolve_fuel fuel t follow p with
    | Found c' (File i) =>
        resolve_fuel fuel (tree_update c None t) follow p =
        if list_eq_dec string_dec c' c
        then Absent (removelast c) (last c "")
        else Found c' (File i)
    | _ => True
    end.
Proof.
  intros Hne Hc. induction fuel as [|fuel IH]; intros p; cbn [resolve_fuel];
    pose proof (descend_remove_file p t [] c [] c j Hc) as Hd;
    destruct (descend t [] p) as [h n|h nm tgt rest|h nm rest|] eqn:Hp.
  - destruct n as [i| |]; try exact I.
    pose proof (descend_reached_here _ _ _ _ _ Hp) as Hh. cbn in Hh. subst h.
    destruct (list_eq_dec string_dec p c) as [->|Hpc].
    + rewrite (descend_removed_file c Hne _ _ _ _ Hc). reflexivity.
    + rewrite (Hd Hpc). reflexivity.
  - rewrite Hd. destruct (negb follow && is_nil rest); exact I.
  - destruct (is_nil rest); exact I.
  - exact I.
  - destruct n as [i| |]; try exact I.
    pose proof (descend_reached_here _ _ _ _ _ Hp) as Hh. cbn in Hh. subst h.
    destruct (list_eq_dec string_dec p c) as [->|Hpc].
    + rewrite (descend_removed_file c Hne _ _ _ _ Hc). reflexivity.
    + rewrite (Hd Hpc). reflexivity.
  - rewrite Hd. destruct (negb follow && is_nil rest); [exact I|]. apply IH.
  - destruct (is_nil rest); exact I.
  - exact I.
Qed.

Lemma resolve_canonical_file (fuel : nat) (t : node) (follow : bool) :
  forall p c i,
    resolve_fuel fuel t follow p = Found c (File i) ->
    descend t [] c = Reached c (File i).
Proof.
  induction fuel as [|fuel IH]; intros p c i H; cbn [resolve_fuel] in H;
    destruct (descend t [] p) as [h n|h nm tgt rest|h nm rest|] eqn:Hd.
  - inversion H; subst.
    pose proof (descend_reached_here _ _ _ _ _ Hd) as Hh. cbn in Hh. subst. exact Hd.
  - destruct (negb follow && is_nil rest); discriminate.
  - destruct (is_nil rest); discriminate.
  - discriminate.
  - inversion H; subst.
    pose proof (descend_reached_here _ _ _ _ _ Hd) as Hh. cbn in Hh. subst. exact Hd.
  - destruct (negb follow && is_nil rest); [discriminate|]. apply (IH _ _ _ H).
  - destruct (is_nil rest); discriminate.
  - discriminate.
Qed.

Lemma lstat_stat_file (f : FS) (p c : Path) (i : nat) :
  lstat f p = Found c (File i) -> stat f p = Found c (File i).
Proof.
  unfold lstat, stat, resolve. intros H.
  pose proof (resolve_lstat_stat MAXSYMLINKS (tree f) p) as Hs. rewrite H in Hs. exact Hs.
Qed.

Lemma lstat_stat_absent (f : FS) (p parent : Path) (name : string) :
  lstat f p = Absent parent name -> stat f p = Absent parent name.
Proof.
  unfold lstat, stat, resolve. intros H.
  pose proof (resolve_lstat_stat MAXSYMLINKS (tree f) p) as Hs. rewrite H in Hs. exact Hs.
Qed.

Lemma lstat_stat_missing (f : FS) (p : Path) :
  (forall c n, lstat f p <> Found c n) -> stat f p = lstat f p.
Proof.
  unfold lstat, stat, resolve. intros H.
  pose proof (resolve_lstat_stat MAXSYMLINKS (tree f) p) as Hs.
  destruct (resolve_fuel MAXSYMLINKS (tree f) false p) as [c n| |];
    [exfalso; apply (H c n); reflexivity | exact Hs | exact Hs].
Qed.

(** ** The importer, beyond the claims *)

Section ImporterMore.

Variable link_refused : Path -> Path -> option errno.

(** X8. Importing a regular file under a name that is free, on a host that
    lets the link through, returns without a word in the log: the
    destination is then a second name of the source's inode, so it reads as
    the source does, no bytes were copied, and the source is where it was. *)
Theorem import_into_free_name
  (target source parent cs : Path) (name : string) (i : nat) (w : World)
  (Hfree : lstat (fs w) target = Absent parent name)
  (Hsource : lstat (fs w) source = Found cs (File i))
  (Hhost : link_refused source target = None) :
  exists w',
    import_file link_refused target source w = (Ok tt, w') /\
    log w' = log w /\ calls w' = calls w /\ inodes (fs w') = inodes (fs w) /\
    lstat (fs w') target = Found (parent ++ [name]) (File i) /\
    lstat (fs w') source = Found cs (File i) /\
    fs_read (fs w') target = fs_read (fs w) source.
Proof.
  pose proof (lstat_stat_absent _ _ _ _ Hfree) as Hfree'.
  pose proof (lstat_stat_file _ _ _ _ Hsource) as Hsource'.
  eexists. split.
  - rewrite import_file_unfold. unfold delete_step, fs_exists. rewrite Hfree'.
    unfold fs_link. rewrite Hsource, Hfree, Hhost. reflexivity.
  - cbn [fs log calls with_fs inodes tree]. repeat split.
    + unfold lstat, resolve in *. cbn [tree].
      apply (resolve_created (File i) eq_refl _ _ _ _ _ _ Hfree).
    + unfold lstat, resolve in *. cbn [tree].
      apply (resolve_insert_keeps (File i) _ _ _ _ _ _
               (resolve_absent_fresh _ _ _ _ _ _ Hfree) _ _ _ Hsource).
    + unfold fs_read. rewrite Hsource'. unfold stat, resolve in *. cbn [tree inodes].
      rewrite (resolve_created (File i) eq_refl _ _ _ _ _ _ Hfree'). reflexivity.
Qed.

(** X9. Importing a regular file over a destination that is another regular
    file replaces it: the old name is unlinked, the link is made in its
    place, nothing is logged, and the destination then names the source's
    inode and reads as the source does. *)
Theorem import_over_existing_file
  (target source ct cs : Path) (i j : nat) (w : World)
  (Hold : lstat (fs w) target = Found ct (File j))
  (Hsource : lstat (fs w) source = Found cs (File i))
  (Hother : cs <> ct)
  (Hhost : link_refused source target = None) :
  exists w',
    import_file link_refused target source w = (Ok tt, w') /\
    log w' = log w /\
    lstat (fs w') target = Found ct (File i) /\
    lstat (fs w') source = Found cs (File i) /\
    fs_read (fs w') target = fs_read (fs w) source.
Proof.
  pose proof (lstat_stat_file _ _ _ _ Hold) as Hold'.
  pose proof (lstat_stat_file _ _ _ _ Hsource) as Hsource'.
  assert (descend (tree (fs w)) [] ct = Reached ct (File j)) as Hct
      by (apply (resolve_canonical_file _ _ _ _ _ _ Hold)).
  assert (ct <> []) as Hne.
  { intros ->. cbn in Hct. inversion Hct as [Ht].
    pose proof (resolve_canonical_file _ _ _ _ _ _ Hsource) as Hcs.
    rewrite Ht in Hcs. destruct cs; [congruence | discriminate]. }
  set (f1 := mkFS (tree_update ct None (tree (fs w))) (inodes (fs w))).
  assert (forall follow,
             resolve_fuel MAXSYMLINKS (tree (fs w)) follow target = Found ct (File j) ->
             resolve_fuel MAXSYMLINKS (tree f1) follow target
             = Absent (removelast ct) (last ct "")) as Hgone.
  { intros follow H.
    pose proof (resolve_removed_file ct j MAXSYMLINKS (tree (fs w)) follow Hne Hct target)
      as Hr.
    rewrite H in Hr. destruct (list_eq_dec string_dec ct ct); [exact Hr | congruence]. }
  assert (forall follow,
             resolve_fuel MAXSYMLINKS (tree (fs w)) follow source = Found cs (File i) ->
             resolve_fuel MAXSYMLINKS (tree f1) follow source = Found cs (File i)) as Hstay.
  { intros follow H.
    pose proof (resolve_removed_file ct j MAXSYMLINKS (tree (fs w)) follow Hne Hct source)
      as Hr.
    rewrite H in Hr. destruct (list_eq_dec string_dec cs ct); [congruence | exact Hr]. }
  assert (removelast ct ++ [last ct ""] = ct) as Hsplit
      by (symmetry; apply app_removelast_last; exact Hne).
  assert (delete_step (fs w) target = (Ok tt, f1)) as Hdel.
  { unfold delete_step, fs_exists, fs_unlink. rewrite Hold', Hold.
    destruct ct; [congruence | reflexivity]. }
  eexists. split.
  - rewrite import_file_unfold, Hdel. unfold fs_link.
    unfold lstat, resolve in *.
    rewrite (Hstay false Hsource), (Hgone false Hold), Hhost, Hsplit. reflexivity.
  - pose proof (resolve_created (File i) eq_refl _ _ _ _ _ _ (Hgone false Hold)) as Hnew.
    pose proof (resolve_created (File i) eq_refl _ _ _ _ _ _ (Hgone true Hold')) as Hnew'.
    pose proof (resolve_absent_fresh _ _ _ _ _ _ (Hgone false Hold)) as Hslot.
    rewrite Hsplit in Hnew, Hnew', Hslot.
    cbn [fs log calls with_fs inodes tree]. repeat split.
    + exact Hnew.
    + unfold lstat, resolve in *. cbn [tree].
      apply (resolve_insert_keeps (File i) _ _ _ _ _ _ Hslot). apply Hstay, Hsource.
    + unfold fs_read. rewrite Hsource'. unfold stat, resolve in *. cbn [tree inodes].
      rewrite Hnew'. reflexivity.
Qed.

(** When the source does not resolve on the file system the delete step
    left, the link fails, the copy fails in the same way, and the copy's
    exception is the result. *)
Lemma import_file_source_gone (target source : Path) (w : World) (f1 : FS) :
  delete_step (fs w) target = (Ok tt, f1) ->
  (forall c n, lstat f1 source <> Found c n) ->
  import_file link_refused target source w =
  (Raise (os_error (lookup_errno (lstat f1 source)) source),
   mkWorld f1
           (log w ++ [link_failed target source
                        (os_error (lookup_errno (lstat f1 source)) source)])
           (calls w)).
Proof.
  intros Hdel Hgone.
  pose proof (lstat_stat_missing _ _ Hgone) as Hstat.
  assert (is_FileExistsError (os_error (lookup_errno (lstat f1 source)) source) = false)
    as Hfe.
  { unfold lstat, resolve in *.
    destruct (resolve_fuel MAXSYMLINKS (tree f1) false source) as [c n|pa nm|e] eqn:Hl.
    - exfalso. apply (Hgone c n). reflexivity.
    - reflexivity.
    - apply resolve_errno in Hl. destruct Hl as [->|[->| ->]]; reflexivity. }
  rewrite import_file_unfold, Hdel.
  assert (fs_link link_refused f1 source target
          = (Raise (os_error (lookup_errno (lstat f1 source)) source), f1)) as Hl.
  { unfold fs_link. destruct (lstat f1 source) as [c n| |];
      [exfalso; apply (Hgone c n); reflexivity | reflexivity | reflexivity]. }
  rewrite Hl, Hfe. cbn [is_OSError os_error].
  assert (fs_copy f1 source target
          = (Raise (os_error (lookup_errno (lstat f1 source)) source), f1)) as Hc.
  { unfold fs_copy, same_file. rewrite Hstat.
    destruct (lstat f1 source) as [c n| |];
      [exfalso; apply (Hgone c n); reflexivity | reflexivity | reflexivity]. }
  rewrite Hc. reflexivity.
Qed.

(** X10. Importing a regular file onto its own path destroys it: the
    existence check finds the file, the file is unlinked, the link then
    finds no source and neither does the copy, so [import_file] raises
    [FileNotFoundError] and the path no longer exists. *)
Theorem import_onto_itself_removes_the_file
  (p c : Path) (i : nat) (w : World)
  (Hfile : lstat (fs w) p = Found c (File i))
  (Hroot : is_dir_node (tree (fs w)) = true) :
  exists w',
    import_file link_refused p p w = (Raise (os_error ENOENT p), w') /\
    log w' = log w ++ [link_failed p p (os_error ENOENT p)] /\
    fs_exists (fs w') p = false /\
    fs_read (fs w') p = None.
Proof.
  pose proof (lstat_stat_file _ _ _ _ Hfile) as Hfile'.
  assert (descend (tree (fs w)) [] c = Reached c (File i)) as Hc
      by (apply (resolve_canonical_file _ _ _ _ _ _ Hfile)).
  assert (c <> []) as Hne.
  { intros ->. cbn in Hc. inversion Hc as [Ht]. rewrite Ht in Hroot. discriminate. }
  set (f1 := mkFS (tree_update c None (tree (fs w))) (inodes (fs w))).
  assert (forall follow,
             resolve_fuel MAXSYMLINKS (tree (fs w)) follow p = Found c (File i) ->
             resolve_fuel MAXSYMLINKS (tree f1) follow p
             = Absent (removelast c) (last c "")) as Hgone.
  { intros follow H.
    pose proof (resolve_removed_file c i MAXSYMLINKS (tree (fs w)) follow Hne Hc p) as Hr.
    rewrite H in Hr. destruct (list_eq_dec string_dec c c); [exact Hr | congruence]. }
  assert (delete_step (fs w) p = (Ok tt, f1)) as Hdel.
  { unfold delete_step, fs_exists, fs_unlink. rewrite Hfile', Hfile.
    destruct c; [congruence | reflexivity]. }
  assert (lstat f1 p = Absent (removelast c) (last c "")) as Hl by (apply Hgone, Hfile).
  assert (forall c' n, lstat f1 p <> Found c' n) as Hnf by (rewrite Hl; discriminate).
  eexists. split.
  - rewrite (import_file_source_gone _ _ _ _ Hdel Hnf), Hl. reflexivity.
  - cbn [fs log calls]. split; [reflexivity|].
    unfold fs_exists, fs_read. unfold stat, resolve. rewrite (Hgone true Hfile'). auto.
Qed.

(** X11. When the source does not exist, [import_file] raises the
    [OSError] of the failed lookup, after logging the failed link; by then
    the delete step has been carried out, so a destination that existed is
    gone although nothing has taken its place. *)
Theorem import_of_missing_source
  (target source : Path) (w : World) (f1 : FS)
  (Hmissing : forall c n, lstat (fs w) source <> Found c n)
  (Hdelete : delete_step (fs w) target = (Ok tt, f1)) :
  exists e,
    import_file link_refused target source w =
    (Raise (os_error e source),
     mkWorld f1 (log w ++ [link_failed target source (os_error e source)]) (calls w)) /\
    (fs_exists (fs w) target = true -> forall c n, lstat f1 target <> Found c n).
Proof.
  assert (forall c n, lstat f1 source <> Found c n) as Hgone.
  { unfold delete_step in Hdelete. destruct (fs_exists (fs w) target).
    - unfold fs_unlink in Hdelete.
      destruct (lstat (fs w) target) as [ct nt| |]; try discriminate.
      assert (f1 = mkFS (tree_update ct None (tree (fs w))) (inodes (fs w))) as ->
          by (destruct ct, nt; try discriminate; inversion Hdelete; reflexivity).
      intros c n H. unfold lstat, resolve in *. cbn [tree] in H.
      destruct (resolve_remove _ _ _ _ _ _ _ H) as (n0 & H0).
      apply (Hmissing _ _ H0).
    - inversion Hdelete; subst. exact Hmissing. }
  exists (lookup_errno (lstat f1 source)). split.
  - apply (import_file_source_gone _ _ _ _ Hdelete Hgone).
  - intros He. unfold delete_step in Hdelete. rewrite He in Hdelete.
    apply (fs_unlink_removes _ _ _ Hdelete).
Qed.

(** X12. A destination that is a directory stops [import_file] at once:
    the existence check finds it, [unlink] refuses a directory, and that
    exception is the result; no link is tried, nothing is changed and
    nothing is logged. *)
Theorem import_onto_directory_raises
  (target source c : Path) (r : bool) (es : list (string * node)) (w : World)
  (Hdir : lstat (fs w) target = Found c (Dir r es)) :
  import_file link_refused target source w = (Raise (os_error EISDIR target), w).
Proof.
  assert (stat (fs w) target = Found c (Dir r es)) as Hs.
  { unfold lstat, stat, resolve in *.
    pose proof (resolve_lstat_stat MAXSYMLINKS (tree (fs w)) target) as H.
    rewrite Hdir in H. exact H. }
  rewrite import_file_unfold. unfold delete_step, fs_exists, fs_unlink.
  rewrite Hs, Hdir. destruct c, w; reflexivity.
Qed.



End ImporterMore.

Lemma extractor_is_called_on_archives_only_example :
  exists done rest,
    filter (is_archive (table_guess_type posix_types))
           [show ++ ["ep1.mkv"]; show ++ ["pack.zip"]] = done ++ rest /\
    calls (snd (extract_archives (table_guess_type posix_types) patool_rejects
                  [show ++ ["ep1.mkv"]; show ++ ["pack.zip"]] world0))
    = calls world0 ++ map call_of done /\
    rest = [].
Proof.
  destruct (extractor_is_called_on_archives_only
              (table_guess_type posix_types) patool_rejects
              [show ++ ["ep1.mkv"]; show ++ ["pack.zip"]] world0)
    as (done & rest & H1 & H2 & H3).
  exists done, rest. split; [exact H1|]. split; [exact H2|].
  apply (H3 tt). reflexivity.
Defined.

Lemma import_into_free_name_example :
  exists w',
    import_file no_refusal ["library"; "ep1.mkv"] (show ++ ["ep1.mkv"]) world0
    = (Ok tt, w') /\
    log w' = log world0 /\ calls w' = calls world0 /\
    inodes (fs w') = inodes (fs world0) /\
    lstat (fs w') ["library"; "ep1.mkv"] = Found (["library"] ++ ["ep1.mkv"]) (File 1) /\
    lstat (fs w') (show ++ ["ep1.mkv"]) = Found (show ++ ["ep1.mkv"]) (File 1) /\
    fs_read (fs w') ["library"; "ep1.mkv"] = fs_read (fs world0) (show ++ ["ep1.mkv"]).
Proof.
  apply (import_into_free_name no_refusal ["library"; "ep1.mkv"] (show ++ ["ep1.mkv"])
           ["library"] (show ++ ["ep1.mkv"]) "ep1.mkv" 1 world0);
    reflexivity.
Defined.

Lemma import_over_existing_file_example :
  exists w',
    import_file no_refusal (show ++ ["pack.zip"]) (show ++ ["ep1.mkv"]) world0
    = (Ok tt, w') /\
    log w' = log world0 /\
    lstat (fs w') (show ++ ["pack.zip"]) = Found (show ++ ["pack.zip"]) (File 1) /\
    lstat (fs w') (show ++ ["ep1.mkv"]) = Found (show ++ ["ep1.mkv"]) (File 1) /\
    fs_read (fs w') (show ++ ["pack.zip"]) = fs_read (fs world0) (show ++ ["ep1.mkv"]).
Proof.
  apply (import_over_existing_file no_refusal (show ++ ["pack.zip"]) (show ++ ["ep1.mkv"])
           (show ++ ["pack.zip"]) (show ++ ["ep1.mkv"]) 1 2 world0).
  - reflexivity.
  - reflexivity.
  - intros H. discriminate H.
  - reflexivity.
Defined.

Lemma import_onto_itself_removes_the_file_example :
  exists w',
    import_file no_refusal (show ++ ["ep1.mkv"]) (show ++ ["ep1.mkv"]) world0
    = (Raise (os_error ENOENT (show ++ ["ep1.mkv"])), w') /\
    log w' = log world0 ++ [link_failed (show ++ ["ep1.mkv"]) (show ++ ["ep1.mkv"])
                                        (os_error ENOENT (show ++ ["ep1.mkv"]))] /\
    fs_exists (fs w') (show ++ ["ep1.mkv"]) = false /\
    fs_read (fs w') (show ++ ["ep1.mkv"]) = None.
Proof.
  apply (import_onto_itself_removes_the_file no_refusal (show ++ ["ep1.mkv"])
           (show ++ ["ep1.mkv"]) 1 world0);
    reflexivity.
Defined.

Lemma import_of_missing_source_example :
  exists e,
    import_file no_refusal (show ++ ["pack.zip"]) (show ++ ["gone.mkv"]) world0 =
    (Raise (os_error e (show ++ ["gone.mkv"])),
     mkWorld disk_without_pack
             (log world0 ++ [link_failed (show ++ ["pack.zip"]) (show ++ ["gone.mkv"])
                                         (os_error e (show ++ ["gone.mkv"]))])
             (calls world0)) /\
    (fs_exists (fs world0) (show ++ ["pack.zip"]) = true ->
     forall c n, lstat disk_without_pack (show ++ ["pack.zip"]) <> Found c n).
Proof.
  apply (import_of_missing_source no_refusal (show ++ ["pack.zip"]) (show ++ ["gone.mkv"])
           world0 disk_without_pack).
  - intros c n H. discriminate H.
  - reflexivity.
Defined.

Lemma import_onto_directory_raises_example :
  import_file no_refusal (show ++ ["subs"]) (show ++ ["ep1.mkv"]) world0
  = (Raise (os_error EISDIR (show ++ ["subs"])), world0).
Proof.
  apply (import_onto_directory_raises no_refusal (show ++ ["subs"]) (show ++ ["ep1.mkv"])
           (show ++ ["subs"]) true [("ep1.srt", File 3); ("notes.txt", File 4)] world0).
  reflexivity.
Defined.


(** ** The orchestrator, beyond the claims *)

Lemma split_slash_plain (s : string) :
  no_slash s = true -> forall cur, split_slash s cur = [cur +++ s].
Proof.
  induction s as [|a s IH]; intros H cur; cbn in *.
  - f_equal. induction cur as [|c cur IHc]; cbn; [reflexivity | f_equal; exact IHc].
  - apply andb_true_iff in H as [Ha Hs]. apply negb_true_iff in Ha. rewrite Ha.
    rewrite (IH Hs). f_equal.
    induction cur as [|c cur IHc]; cbn; [reflexivity | f_equal; exact IHc].
Qed.

(** X14. For a title that is a plain name (no slash in it, not empty and not
    a single dot) the directory of the torrent is the entry of that name in
    the configured torrent directory. *)
Theorem get_torrent_filepath_of_plain_title
  (torrent_directory : Path) (torrent : Torrent)
  (Hplain : no_slash (title torrent) = true)
  (Hname : title torrent <> "")
  (Hdot : title torrent <> ".") :
  get_torrent_filepath torrent_directory torrent = torrent_directory ++ [title torrent].
Proof.
  unfold get_torrent_filepath, path_join, components.
  rewrite (split_slash_plain _ Hplain). cbn [append filter].
  apply String.eqb_neq in Hname, Hdot. rewrite Hname, Hdot. cbn [orb negb].
  assert (startswith (title torrent) "/" = false) as ->.
  { unfold startswith. destruct (title torrent) as [|a s]; [reflexivity|].
    cbn in Hplain. apply andb_true_iff in Hplain as [Ha _]. apply negb_true_iff in Ha.
    cbn [String.prefix]. destruct (ascii_dec "/" a) as [<-|]; [discriminate Ha | reflexivity]. }
  reflexivity.
Qed.

Lemma get_torrent_filepath_of_plain_title_example :
  get_torrent_filepath ["downloads"] show_torrent = ["downloads"] ++ [title show_torrent].
Proof.
  apply (get_torrent_filepath_of_plain_title ["downloads"] show_torrent).
  - reflexivity.
  - intros H. discriminate H.
  - intros H. discriminate H.
Defined.

Section OrchestratorMore.

Variable guess_type : string -> option string * option string.
Variable extract_archive : string -> string -> FS -> Outcome unit * FS.
Variable torrent_directory : Path.


(** X15. When the directory of the torrent is not there, is no directory
    or cannot be listed, and looking it up meets no error that pathlib
    raises again, [import_torrent] raises nothing: it returns three empty
    lists, without a call to the extractor and without a change to the file
    system. The path of the directory is plain: its parts are names, and
    none of them is [..], which the tree does not resolve. *)
Theorem import_torrent_of_missing_directory
  (torrent : Torrent) (w : World)
  (Hplain : plain_path (get_torrent_filepath torrent_directory torrent) = true)
  (Hquiet : scan_raises (fs w) (get_torrent_filepath torrent_directory torrent) = None)
  (Hmissing : listable (fs w) (get_torrent_filepath torrent_directory torrent) = false) :
  exists w',
    import_torrent guess_type extract_archive torrent_directory torrent w
    = (Ok ([], [], []), w') /\
    fs w' = fs w /\ calls w' = calls w.
Proof.
  assert (scan_files (fs w) (get_torrent_filepath torrent_directory torrent) = []) as Hs.
  { unfold scan_files. rewrite (scan_files_unlistable _ _ Hmissing). reflexivity. }
  rewrite import_torrent_unfold, Hquiet, Hs.
  cbn [extract_archives for_each for_fold ret].
  cbn [fs]. rewrite Hquiet, Hs. eexists. split; [reflexivity|]. split; reflexivity.
Qed.

(** X16. Whenever [import_torrent] returns, the third list is what a scan
    of the directory returns on the file system as the call left it, the
    first two are drawn from the third and share no path, and every path
    returned lies strictly below the directory of the torrent. *)
Theorem import_torrent_result
  (torrent : Torrent) (w w' : World) (v s B : list Path)
  (Hdone : import_torrent guess_type extract_archive torrent_directory torrent w
           = (Ok (v, s, B), w')) :
  fst (list_files_recursively (get_torrent_filepath torrent_directory torrent) w') = Ok B /\
  incl v B /\ incl s B /\
  (forall x, In x v -> ~ In x s) /\
  (forall p, In p B ->
             exists rel, rel <> [] /\
                         p = get_torrent_filepath torrent_directory torrent ++ rel).
Proof.
  rewrite import_torrent_unfold in Hdone.
  destruct (scan_raises (fs w) (get_torrent_filepath torrent_directory torrent));
    [discriminate Hdone|].
  match type of Hdone with
  | context [extract_archives _ _ ?A ?w1] =>
      destruct (extract_archives guess_type extract_archive A w1) as [[[]|e] w2]
  end; [|discriminate].
  destruct (scan_raises (fs w2) (get_torrent_filepath torrent_directory torrent))
    eqn:Hr2; [discriminate Hdone|].
  cbn zeta in Hdone. inversion Hdone; subst. cbn [fs].
  split; [rewrite list_files_recursively_eq; cbn [fs]; rewrite Hr2; reflexivity|].
  split; [apply incl_filter|]. split; [apply incl_filter|]. split.
  - intros x Hv Hs. apply filter_In in Hv as [_ Hv], Hs as [_ Hs].
    rewrite (video_not_subtitle _ _ Hv) in Hs. discriminate.
  - intros p Hp. apply scan_files_below in Hp. tauto.
Qed.



End OrchestratorMore.

Lemma import_torrent_of_missing_directory_example :
  exists w',
    import_torrent (table_guess_type posix_types) patool_crashes ["downloads"]
                   gone_torrent world0
    = (Ok ([], [], []), w') /\
    fs w' = fs world0 /\ calls w' = calls world0.
Proof.
  apply (import_torrent_of_missing_directory
           (table_guess_type posix_types) patool_crashes ["downloads"]
           gone_torrent world0).
  - reflexivity.
  - vm_compute. reflexivity.
  - vm_compute. reflexivity.
Defined.

Lemma import_torrent_result_example :
  fst (list_files_recursively (get_torrent_filepath ["downloads"] show_torrent)
         (snd (import_torrent (table_guess_type posix_types) patool_unpacks
                              ["downloads"] show_torrent world0)))
  = Ok [show ++ ["ep1.mkv"]; show ++ ["pack.zip"]; show ++ ["movie.mp4"];
        show ++ ["inner.zip"]; show ++ ["subs"; "ep1.srt"];
        show ++ ["subs"; "notes.txt"]] /\
  incl [show ++ ["ep1.mkv"]; show ++ ["movie.mp4"]]
       [show ++ ["ep1.mkv"]; show ++ ["pack.zip"]; show ++ ["movie.mp4"];
        show ++ ["inner.zip"]; show ++ ["subs"; "ep1.srt"];
        show ++ ["subs"; "notes.txt"]] /\
  incl [show ++ ["subs"; "ep1.srt"]]
       [show ++ ["ep1.mkv"]; show ++ ["pack.zip"]; show ++ ["movie.mp4"];
        show ++ ["inner.zip"]; show ++ ["subs"; "ep1.srt"];
        show ++ ["subs"; "notes.txt"]] /\
  (forall x, In x [show ++ ["ep1.mkv"]; show ++ ["movie.mp4"]] ->
             ~ In x [show ++ ["subs"; "ep1.srt"]]) /\
  (forall p,
      In p [show ++ ["ep1.mkv"]; show ++ ["pack.zip"]; show ++ ["movie.mp4"];
            show ++ ["inner.zip"]; show ++ ["subs"; "ep1.srt"];
            show ++ ["subs"; "notes.txt"]] ->
      exists rel, rel <> [] /\
                  p = get_torrent_filepath ["downloads"] show_torrent ++ rel).
Proof.
  apply (import_torrent_result
           (table_guess_type posix_types) patool_unpacks ["downloads"] show_torrent
           world0
           (snd (import_torrent (table_guess_type posix_types) patool_unpacks
                                ["downloads"] show_torrent world0))
           [show ++ ["ep1.mkv"]; show ++ ["movie.mp4"]]
           [show ++ ["subs"; "ep1.srt"]]
           [show ++ ["ep1.mkv"]; show ++ ["pack.zip"]; show ++ ["movie.mp4"];
            show ++ ["inner.zip"]; show ++ ["subs"; "ep1.srt"];
            show ++ ["subs"; "notes.txt"]]).
  vm_compute. reflexivity.
Defined.


